(** * A shallow embedding of src/src/lambda.rs (egg-bench, lambda benchmark)

    The term language [Lambda], its e-class analysis [LambdaAnalysis]
    (free-variable set and folded constant), the rules that carry side
    conditions and the capture-avoiding applier [CaptureAvoid].

    The e-graph itself belongs to the egg library.  It is modelled here by a
    small hash-consed e-graph with a flattened union-find, offering the
    operations the analysis and the appliers call: [find], [add], [union]
    and indexing of a class's analysis data. *)

From Stdlib Require Import ZArith.
From stdpp Require Import base gmap sets list strings pretty.

Open Scope N_scope.

(** ** Term model: [define_language! { pub enum Lambda { ... } }] *)

(** egg's [Id]: an index into the e-graph's classes. *)
Abbreviation Id := N (only parsing).

Inductive Lambda :=
| Bool (b : bool)
| Num (n : Z)                 (* Num(i32): the payload is an i32 *)
| Var (v : Id)                (* "var" *)
| Add (a b : Id)              (* "+" *)
| Eq (a b : Id)               (* "=" *)
| App (a b : Id)              (* "app" *)
| Lam (v a : Id)              (* "lam" = Lambda([Id; 2]) *)
| Let (v a b : Id)            (* "let" *)
| Fix (v a : Id)              (* "fix" *)
| If (c t e : Id)             (* "if" *)
| Symbol (s : string).

#[global] Instance Lambda_eq_dec : EqDecision Lambda.
Proof. solve_decision. Defined.

(** [impl Lambda { fn num(&self) -> Option<i32> }] *)
Definition num (l : Lambda) : option Z :=
  match l with
  | Num n => Some n
  | _ => None
  end.

(** The children of a node, in [for_each] order. *)
Definition children (n : Lambda) : list Id :=
  match n with
  | Bool _ | Num _ | Symbol _ => []
  | Var v => [v]
  | Add a b | Eq a b | App a b | Lam a b | Fix a b => [a; b]
  | Let a b c | If a b c => [a; b; c]
  end.

(** [update_children]: apply [f] to every child reference. *)
Definition map_children (f : Id -> Id) (n : Lambda) : Lambda :=
  match n with
  | Bool b => Bool b
  | Num z => Num z
  | Symbol s => Symbol s
  | Var v => Var (f v)
  | Add a b => Add (f a) (f b)
  | Eq a b => Eq (f a) (f b)
  | App a b => App (f a) (f b)
  | Lam a b => Lam (f a) (f b)
  | Fix a b => Fix (f a) (f b)
  | Let a b c => Let (f a) (f b) (f c)
  | If a b c => If (f a) (f b) (f c)
  end.

(** ** Rust's [i32] addition

    [x + y] on [i32] wraps in two's complement in a release build and
    panics on overflow in a build with overflow checks (debug). *)

Inductive Profile := Debug | Release.

(** A computation that returns a value or panics. *)
Inductive res (A : Type) := Ret (a : A) | Panic.
Arguments Ret {A} a.
Arguments Panic {A}.

Definition res_bind {A B} (r : res A) (k : A -> res B) : res B :=
  match r with Ret a => k a | Panic => Panic end.

Definition i32_min : Z := (-2147483648)%Z.
Definition i32_max : Z := 2147483647%Z.

Definition in_i32 (z : Z) : Prop := (i32_min <= z <= i32_max)%Z.
#[global] Instance in_i32_dec z : Decision (in_i32 z).
Proof. unfold in_i32. apply _. Defined.

(** Two's-complement reduction to 32 bits. *)
Definition wrap_i32 (z : Z) : Z := ((z + 2 ^ 31) mod 2 ^ 32 - 2 ^ 31)%Z.

Definition i32_add (p : Profile) (x y : Z) : res Z :=
  match p with
  | Release => Ret (wrap_i32 (x + y))
  | Debug => if decide (in_i32 (x + y)) then Ret (x + y)%Z else Panic
  end.

(** ** [fn eval(egraph, enode) -> Option<Lambda>]

    [x] is the closure [|i| egraph[*i].data.constant.clone()]. *)
Definition eval_with (p : Profile) (x : Id -> option Lambda) (enode : Lambda)
  : res (option Lambda) :=
  match enode with
  | Num _ | Bool _ => Ret (Some enode)
  | Add a b =>
      match x a ≫= num with
      | None => Ret None
      | Some na =>
          match x b ≫= num with
          | None => Ret None
          | Some nb => res_bind (i32_add p na nb) (fun s => Ret (Some (Num s)))
          end
      end
  | Eq a b =>
      match x a, x b with
      | Some ca, Some cb => Ret (Some (Bool (bool_decide (ca = cb))))
      | _, _ => Ret None
      end
  | _ => Ret None
  end.

(** ** [struct Data] and [Analysis::merge] *)

Record Data := mkData { free : gset Id; constant : option Lambda }.

Definition empty_data : Data := mkData ∅ None.

Definition is_none_b {A} (o : option A) : bool :=
  match o with None => true | Some _ => false end.

(** [Option<Ordering>] *)
Inductive Ordering := Less | Equal | Greater.

(** [fn merge(&self, to: &mut Data, from: Data) -> Option<Ordering>]:
    returns the updated [to] and the reported ordering. *)
Definition merge (to from : Data) : Data * option Ordering :=
  let before_len := size (free to) in
  (* to.free.retain(|i| from.free.contains(i)); *)
  let free' := filter (fun i => i ∈ free from) (free to) in
  let did_change := negb (Nat.eqb before_len (size free')) in
  if is_none_b (constant to) && negb (is_none_b (constant from)) then
    (mkData free' (constant from), None)
  else if did_change then
    (mkData free' (constant to), None)
  else
    (mkData free' (constant to), Some Greater).

(** Merging a sequence of classes into [to], one after another. *)
Definition merge_all (to : Data) (froms : list Data) : Data :=
  foldl (fun d f => fst (merge d f)) to froms.

(** The first known constant of a sequence. *)
Definition first_known (cs : list (option Lambda)) : option Lambda :=
  foldr (fun c acc => match c with Some _ => c | None => acc end) None cs.

(** ** The e-graph (egg's [EGraph<Lambda, LambdaAnalysis>])

    [memo] is the hash-cons table from canonical nodes to their class,
    [uf] the union-find, kept flat (each id maps straight to its root),
    [classes] the analysis data of each root, [next_id] the next fresh id. *)
Record EGraph := mkEGraph {
  memo : list (Lambda * Id);
  uf : gmap Id Id;
  classes : gmap Id Data;
  next_id : Id
}.

Definition empty_egraph : EGraph := mkEGraph [] ∅ ∅ 0.

Fixpoint memo_lookup (m : list (Lambda * Id)) (n : Lambda) : option Id :=
  match m with
  | [] => None
  | (n', i) :: m' => if decide (n = n') then Some i else memo_lookup m' n
  end.

(** [egraph.find(id)] *)
Definition find (g : EGraph) (i : Id) : Id := default i (uf g !! i).

(** [egraph[id].data] *)
Definition data (g : EGraph) (i : Id) : Data :=
  default empty_data (classes g !! find g i).

Definition free_of (g : EGraph) (i : Id) : gset Id := free (data g i).
Definition constant_of (g : EGraph) (i : Id) : option Lambda := constant (data g i).

(** The e-graph model runs the release profile: [eval] never panics there
    (lemma [eval_with_release_ret]), so the [Panic] branch is dead. *)
Definition eval (g : EGraph) (enode : Lambda) : option Lambda :=
  match eval_with Release (constant_of g) enode with
  | Ret r => r
  | Panic => None
  end.

(** [fn make(egraph, enode) -> Data] *)
Definition make (g : EGraph) (enode : Lambda) : Data :=
  let f := free_of g in
  let free :=
    match enode with
    | Var v => {[v]}
    | Let v a b => ((∅ ∪ f b) ∖ {[v]}) ∪ f a
    | Lam v a | Fix v a => (∅ ∪ f a) ∖ {[v]}
    | _ => foldl (fun acc c => acc ∪ f c) ∅ (children enode)
    end in
  mkData free (eval g enode).

(** Insertion of a node that the hash-cons table does not know yet. *)
Definition insert_new (g : EGraph) (enode : Lambda) : EGraph * Id :=
  let id := next_id g in
  (mkEGraph ((enode, id) :: memo g) (<[id := id]> (uf g))
            (<[id := make g enode]> (classes g)) (id + 1), id).

(** [egraph.add] with the children canonicalised and the table looked up,
    without the trailing [modify] call (see [add]). *)
Definition add_raw (g : EGraph) (enode : Lambda) : EGraph * Id :=
  let enode' := map_children (find g) enode in
  match memo_lookup (memo g) enode' with
  | Some i => (g, find g i)
  | None => insert_new g enode'
  end.

(** The core of [egraph.union(a, b)] for two distinct roots: [b]'s root is
    redirected to [a]'s and the data are combined with [merge]. *)
Definition union_raw (g : EGraph) (a b : Id) : EGraph :=
  let ra := find g a in
  let rb := find g b in
  let d := fst (merge (data g a) (data g b)) in
  mkEGraph (memo g)
           (<[rb := ra]> ((fun r => if decide (r = rb) then ra else r) <$> uf g))
           (<[ra := d]> (delete rb (classes g)))
           (next_id g).

(** [fn modify(egraph, id)], over the union operation [un]:
<<
    if let Some(c) = egraph[id].data.constant.clone() {
        let const_id = egraph.add(c);
        egraph.union(id, const_id);
    }
>>
    [c] is always a literal ([eval] only returns [Num]/[Bool]); the [modify]
    that [egraph.add(c)] would run on a new literal class re-adds [c], finds
    it and unions the class with itself, so [add_raw] stands for it here. *)
Definition modify_with (un : EGraph -> Id -> Id -> EGraph) (g : EGraph) (id : Id)
  : EGraph :=
  match constant_of g id with
  | Some c => let '(g1, const_id) := add_raw g c in un g1 id const_id
  | None => g
  end.

(** [egraph.union(a, b)]: a no-op on one class; otherwise merge and then
    call [modify] on the new root.  The [modify] calls nested in a union
    terminate after a bounded number of steps; [fuel] bounds them. *)
Fixpoint union_f (fuel : nat) (g : EGraph) (a b : Id) : EGraph :=
  match fuel with
  | O => g
  | S k =>
      if decide (find g a = find g b) then g
      else modify_with (union_f k) (union_raw g a b) (find g a)
  end.

Definition union_fuel : nat := 4.
Definition union : EGraph -> Id -> Id -> EGraph := union_f union_fuel.

(** [LambdaAnalysis::modify] *)
Definition modify : EGraph -> Id -> EGraph := modify_with union.

(** [egraph.add(enode)]: look the canonical node up; a new node gets a
    fresh class, its data from [make], and then [modify]. *)
Definition add (g : EGraph) (enode : Lambda) : EGraph * Id :=
  let enode' := map_children (find g) enode in
  match memo_lookup (memo g) enode' with
  | Some i => (g, find g i)
  | None => let '(g1, id) := insert_new g enode' in (modify g1 id, id)
  end.

(** Adding a whole list of nodes, in order (as [RecExpr] insertion does). *)
Definition add_all (g : EGraph) (ns : list Lambda) : EGraph :=
  foldl (fun g n => fst (add g n)) g ns.

Definition wf_egraph (g : EGraph) : bool :=
  forallb (fun p => bool_decide (p.2 < next_id g)) (memo g) &&
  bool_decide (map_Forall (fun i r => i < next_id g /\ r < next_id g) (uf g)).

(** ** Patterns, substitutions and appliers (egg's [Pattern], [Subst]) *)

(** A pattern: a pattern variable ["?x"] or a node over sub-patterns. *)
Inductive Pattern :=
| PV (v : string)
| PBool (b : bool)
| PNum (n : Z)
| PVar (p : Pattern)
| PAdd (p q : Pattern)
| PEq (p q : Pattern)
| PApp (p q : Pattern)
| PLam (p q : Pattern)
| PLet (p q r : Pattern)
| PFix (p q : Pattern)
| PIf (p q r : Pattern)
| PSym (s : string).

Definition Subst := gmap string Id.

(** [subst[v]] (all variables used below are bound by the match). *)
Definition subst_get (s : Subst) (v : string) : Id := default 0 (s !! v).

(** [apply_pat]: instantiate the pattern bottom-up, left to right,
    [egraph.add]ing each node. *)
Fixpoint apply_pat (g : EGraph) (s : Subst) (p : Pattern) : EGraph * Id :=
  let add1 q mk := let '(g1, i1) := apply_pat g s q in add g1 (mk i1) in
  let add2 q r mk :=
    let '(g1, i1) := apply_pat g s q in
    let '(g2, i2) := apply_pat g1 s r in add g2 (mk i1 i2) in
  let add3 q r t mk :=
    let '(g1, i1) := apply_pat g s q in
    let '(g2, i2) := apply_pat g1 s r in
    let '(g3, i3) := apply_pat g2 s t in add g3 (mk i1 i2 i3) in
  match p with
  | PV v => (g, subst_get s v)
  | PBool b => add g (Bool b)
  | PNum n => add g (Num n)
  | PSym x => add g (Symbol x)
  | PVar q => add1 q Var
  | PAdd q r => add2 q r Add
  | PEq q r => add2 q r Eq
  | PApp q r => add2 q r App
  | PLam q r => add2 q r Lam
  | PFix q r => add2 q r Fix
  | PLet q r t => add3 q r t Let
  | PIf q r t => add3 q r t If
  end.

(** [Applier::apply_one(&self, egraph, eclass, subst) -> Vec<Id>] *)
Definition Applier := EGraph -> Id -> Subst -> EGraph * list Id.
(** [Condition::check(&self, egraph, eclass, subst) -> bool] *)
Definition Condition := EGraph -> Id -> Subst -> EGraph * bool.

(** A [Pattern] used as an applier. *)
Definition pattern_applier (p : Pattern) : Applier :=
  fun g _ s => let '(g1, i) := apply_pat g s p in (g1, [i]).

(** egg's [ConditionalApplier]: apply only when the condition holds. *)
Definition conditional_applier (cond : Condition) (app : Applier) : Applier :=
  fun g eclass s =>
    let '(g1, ok) := cond g eclass s in
    if ok then app g1 eclass s else (g1, []).

(** [ConditionEqual::parse(p1, p2)]: instantiate both patterns (adding
    them) and compare the ids. *)
Definition condition_equal (p1 p2 : Pattern) : Condition :=
  fun g _ s =>
    let '(g1, a1) := apply_pat g s p1 in
    let '(g2, a2) := apply_pat g1 s p2 in
    (g2, bool_decide (a1 = a2)).

(** [fn is_not_same_var(v1, v2)] *)
Definition is_not_same_var (v1 v2 : string) : Condition :=
  fun g _ s => (g, bool_decide (find g (subst_get s v1) <> find g (subst_get s v2))).

(** [fn is_const(v)] *)
Definition is_const (v : string) : Condition :=
  fun g _ s => (g, negb (is_none_b (constant_of g (subst_get s v)))).

(** ** [struct CaptureAvoid] and its [Applier] impl *)
Record CaptureAvoid := mkCaptureAvoid {
  ca_fresh : string;
  ca_v2 : string;
  ca_e : string;
  if_not_free : Pattern;
  if_free : Pattern
}.

(** [format!("_{}", eclass)] *)
Definition fresh_name (eclass : Id) : string := "_" +:+ pretty eclass.

Definition capture_avoid_apply_one (ca : CaptureAvoid) : Applier :=
  fun g eclass s =>
    let e := subst_get s (ca_e ca) in
    let v2 := subst_get s (ca_v2 ca) in
    let v2_free_in_e := bool_decide (v2 ∈ free_of g e) in
    if v2_free_in_e then
      let '(g1, sym) := add g (Symbol (fresh_name eclass)) in
      let s' := <[ca_fresh ca := sym]> s in
      pattern_applier (if_free ca) g1 eclass s'
    else
      pattern_applier (if_not_free ca) g eclass s.

(** ** The rules with a side condition or a custom applier *)

(** "if-elim": [(if (= (var ?x) ?e) ?then ?else) => ?else
    if ConditionEqual::parse("(let ?x ?e ?then)", "(let ?x ?e ?else)")] *)
Definition if_elim_lhs : Pattern :=
  PIf (PEq (PVar (PV "?x")) (PV "?e")) (PV "?then") (PV "?else").
Definition if_elim_cond : Condition :=
  condition_equal (PLet (PV "?x") (PV "?e") (PV "?then"))
                  (PLet (PV "?x") (PV "?e") (PV "?else")).
Definition if_elim : Applier :=
  conditional_applier if_elim_cond (pattern_applier (PV "?else")).

(** "let-lam-diff": [(let ?v1 ?e (lam ?v2 ?body)) => CaptureAvoid {..}
    if is_not_same_var(?v1, ?v2)] *)
Definition let_lam_diff_lhs : Pattern :=
  PLet (PV "?v1") (PV "?e") (PLam (PV "?v2") (PV "?body")).
Definition let_lam_diff_applier : CaptureAvoid := {|
  ca_fresh := "?fresh"; ca_v2 := "?v2"; ca_e := "?e";
  if_not_free := PLam (PV "?v2") (PLet (PV "?v1") (PV "?e") (PV "?body"));
  if_free := PLam (PV "?fresh")
               (PLet (PV "?v1") (PV "?e")
                  (PLet (PV "?v2") (PVar (PV "?fresh")) (PV "?body")))
|}.
Definition let_lam_diff : Applier :=
  conditional_applier (is_not_same_var "?v1" "?v2")
                      (capture_avoid_apply_one let_lam_diff_applier).

(** ** Searching: e-matching a pattern against one class *)

(** The nodes of class [cls] known to the hash-cons table. *)
Definition nodes_of (g : EGraph) (cls : Id) : list Lambda :=
  (fun p => p.1) <$> filter (fun p => find g p.2 = find g cls) (memo g).

Fixpoint ematch (g : EGraph) (p : Pattern) (cls : Id) (s : Subst) : list Subst :=
  let leaf n := if decide (n ∈ nodes_of g cls) then [s] else [] in
  let two q r a b := ematch g q a s ≫= fun s1 => ematch g r b s1 in
  let three q r t a b c :=
    ematch g q a s ≫= fun s1 => ematch g r b s1 ≫= fun s2 => ematch g t c s2 in
  match p with
  | PV v =>
      match s !! v with
      | Some i => if decide (find g i = find g cls) then [s] else []
      | None => [<[v := find g cls]> s]
      end
  | PBool b => leaf (Bool b)
  | PNum n => leaf (Num n)
  | PSym x => leaf (Symbol x)
  | _ =>
      nodes_of g cls ≫= fun n =>
        match p, n with
        | PVar q, Var a => ematch g q a s
        | PAdd q r, Add a b | PEq q r, Eq a b | PApp q r, App a b
        | PLam q r, Lam a b | PFix q r, Fix a b => two q r a b
        | PLet q r t, Let a b c | PIf q r t, If a b c => three q r t a b c
        | _, _ => []
        end
  end.

(** One rewrite at one class: search, then apply each match and union each
    result with the matched class. *)
Definition rewrite_class (lhs : Pattern) (app : Applier) (g : EGraph) (cls : Id)
  : EGraph :=
  foldl (fun g s =>
           let '(g1, ids) := app g cls s in
           foldl (fun g i => union g i cls) g1 ids)
        g (ematch g lhs cls ∅).

(** ** Constant folding of closed terms built from literals, [+] and [=]

    When such a term is added to the e-graph bottom-up, each node's
    [constant] is [eval] of the children's constants; [const_fold] runs
    that computation along the term, under a build profile. *)
Inductive term :=
| TBool (b : bool)
| TNum (n : Z)
| TAdd (a b : term)
| TEq (a b : term).

(** The children's constants, as [egraph[*i].data.constant] for the two
    children ids [0] and [1]. *)
Definition child_consts (ca cb : option Lambda) : Id -> option Lambda :=
  fun i => if decide (i = 0) then ca else cb.

Fixpoint const_fold (p : Profile) (t : term) : res (option Lambda) :=
  match t with
  | TBool b => eval_with p (child_consts None None) (Bool b)
  | TNum n => eval_with p (child_consts None None) (Num n)
  | TAdd a b =>
      res_bind (const_fold p a) (fun ca =>
      res_bind (const_fold p b) (fun cb =>
      eval_with p (child_consts ca cb) (Add 0 1)))
  | TEq a b =>
      res_bind (const_fold p a) (fun ca =>
      res_bind (const_fold p b) (fun cb =>
      eval_with p (child_consts ca cb) (Eq 0 1)))
  end.

(** The mathematical value of such a term: unbounded integers, booleans,
    and [=] as equality of values; [+] on a boolean has no value. *)
Inductive value := VBool (b : bool) | VInt (z : Z).

#[global] Instance value_eq_dec : EqDecision value.
Proof. solve_decision. Defined.

Fixpoint sem (t : term) : option value :=
  match t with
  | TBool b => Some (VBool b)
  | TNum n => Some (VInt n)
  | TAdd a b =>
      match sem a, sem b with
      | Some (VInt x), Some (VInt y) => Some (VInt (x + y))
      | _, _ => None
      end
  | TEq a b =>
      match sem a, sem b with
      | Some x, Some y => Some (VBool (bool_decide (x = y)))
      | _, _ => None
      end
  end.

Definition lit_of (v : value) : Lambda :=
  match v with VBool b => Bool b | VInt z => Num z end.

(** Every literal of the term is an [i32]. *)
Fixpoint lits_in_i32 (t : term) : Prop :=
  match t with
  | TBool _ => True
  | TNum n => in_i32 n
  | TAdd a b | TEq a b => lits_in_i32 a /\ lits_in_i32 b
  end.

Definition int_in_i32 (v : option value) : Prop :=
  match v with Some (VInt z) => in_i32 z | _ => True end.

#[global] Instance int_in_i32_dec v : Decision (int_in_i32 v).
Proof. destruct v as [[]|]; simpl; apply _. Defined.

(** No [+] of the term has an exact integer value outside the [i32] range. *)
Fixpoint no_overflow (t : term) : Prop :=
  match t with
  | TBool _ | TNum _ => True
  | TAdd a b =>
      no_overflow a /\ no_overflow b /\ int_in_i32 (sem t)
  | TEq a b => no_overflow a /\ no_overflow b
  end.

#[global] Instance lits_in_i32_dec t : Decision (lits_in_i32 t).
Proof. induction t; simpl; apply _. Defined.

#[global] Instance no_overflow_dec t : Decision (no_overflow t).
Proof. induction t; simpl; apply _. Defined.

(** ** The well-formedness of the e-graph model

    Ids are below [next_id]; every such id is in the union-find; the
    union-find is flat (each entry points at a root that points at
    itself); the hash-cons table only names existing ids. *)
Definition egraph_inv (g : EGraph) : Prop :=
  map_Forall (fun i r => i < next_id g /\ r < next_id g /\ uf g !! r = Some r) (uf g) /\
  (forall i, i < next_id g -> is_Some (uf g !! i)) /\
  Forall (fun p => p.2 < next_id g) (memo g).

(** An executable check of [egraph_inv] for concrete e-graphs. *)
Definition egraph_inv_check (g : EGraph) : bool :=
  bool_decide (map_Forall (fun i r => i < next_id g /\ r < next_id g /\ uf g !! r = Some r) (uf g)) &&
  forallb (fun k => bool_decide (is_Some (uf g !! N.of_nat k))) (seq 0 (N.to_nat (next_id g))) &&
  bool_decide (Forall (fun p => p.2 < next_id g) (memo g)).

(** [if-elim]'s side condition, read as the spec words it: the two [let]
    nodes are the same node, or both are already in the graph, in one
    class. *)
Definition lets_known_equal (g : EGraph) (s : Subst) : bool :=
  let n1 := Let (find g (subst_get s "?x")) (find g (subst_get s "?e"))
                (find g (subst_get s "?then")) in
  let n2 := Let (find g (subst_get s "?x")) (find g (subst_get s "?e"))
                (find g (subst_get s "?else")) in
  bool_decide (n1 = n2) ||
  match memo_lookup (memo g) n1, memo_lookup (memo g) n2 with
  | Some i1, Some i2 => bool_decide (find g i1 = find g i2)
  | _, _ => false
  end.

(** A union operation that keeps the invariant, never shrinks the id
    space, and never separates two ids already in one class. *)
Definition union_ok (un : EGraph -> Id -> Id -> EGraph) : Prop :=
  forall g a b, egraph_inv g -> a < next_id g -> b < next_id g ->
    egraph_inv (un g a b) /\ next_id g <= next_id (un g a b) /\
    (forall x y, find g x = find g y -> find (un g a b) x = find (un g a b) y).

(** Id bounds the invariant does not cover: the children of the table's
    nodes and the members of the free sets are ids of the graph. *)
Definition egraph_bounded (g : EGraph) : Prop :=
  Forall (fun p => Forall (fun c => c < next_id g) (children p.1)) (memo g) /\
  map_Forall (fun _ d => set_Forall (fun i => i < next_id g) (free d)) (classes g).

#[global] Instance egraph_bounded_dec g : Decision (egraph_bounded g).
Proof. unfold egraph_bounded. apply _. Defined.

(** Every known constant is a literal, as [eval] only returns [Num] and
    [Bool]. *)
Definition lit_b (o : option Lambda) : bool :=
  match o with
  | None | Some (Num _) | Some (Bool _) => true
  | Some _ => false
  end.

Definition consts_lit (g : EGraph) : Prop :=
  map_Forall (fun _ d => lit_b (constant d) = true) (classes g).

#[global] Instance consts_lit_dec g : Decision (consts_lit g).
Proof. unfold consts_lit. apply _. Defined.

Definition egraph_wf (g : EGraph) : Prop :=
  egraph_bounded g /\ consts_lit g.

(** [g'] extends [g]: the invariant holds in [g'], no id is lost, and no
    two ids in one class of [g] are separated in [g']. *)
Definition egraph_grows (g g' : EGraph) : Prop :=
  egraph_inv g' /\ next_id g <= next_id g' /\
  (forall x y, find g x = find g y -> find g' x = find g' y).

(** ** The whole rule set: [fn rules()] *)

(** The variables of a pattern, in order of appearance. *)
Fixpoint pvars (p : Pattern) : list string :=
  match p with
  | PV v => [v]
  | PBool _ | PNum _ | PSym _ => []
  | PVar q => pvars q
  | PAdd q r | PEq q r | PApp q r | PLam q r | PFix q r => pvars q ++ pvars r
  | PLet q r t | PIf q r t => pvars q ++ pvars r ++ pvars t
  end.

(** A rule's right-hand side: a pattern, or the [CaptureAvoid] applier. *)
Inductive Rhs := RhsPattern (p : Pattern) | RhsCapture (ca : CaptureAvoid).

(** A rule's [if] clause. *)
Inductive Cond :=
| NoCond
| CondEqual (p1 p2 : Pattern)          (* ConditionEqual::parse *)
| CondNotSameVar (v1 v2 : string)      (* is_not_same_var *)
| CondIsConst (v : string).            (* is_const *)

(** [rw!(name; lhs => rhs [if cond])] *)
Record Rewrite := mkRewrite {
  rw_name : string;
  rw_lhs : Pattern;
  rw_rhs : Rhs;
  rw_cond : Cond
}.

Definition rhs_applier (r : Rhs) : Applier :=
  match r with
  | RhsPattern p => pattern_applier p
  | RhsCapture ca => capture_avoid_apply_one ca
  end.

Definition cond_check (c : Cond) : Condition :=
  match c with
  | NoCond => fun g _ _ => (g, true)
  | CondEqual p1 p2 => condition_equal p1 p2
  | CondNotSameVar v1 v2 => is_not_same_var v1 v2
  | CondIsConst v => is_const v
  end.

Definition rw_applier (r : Rewrite) : Applier :=
  match rw_cond r with
  | NoCond => rhs_applier (rw_rhs r)
  | c => conditional_applier (cond_check c) (rhs_applier (rw_rhs r))
  end.

Definition rules : list Rewrite := [
  (* open term rules *)
  mkRewrite "if-true" (PIf (PBool true) (PV "?then") (PV "?else")) (RhsPattern (PV "?then")) NoCond;
  mkRewrite "if-false" (PIf (PBool false) (PV "?then") (PV "?else")) (RhsPattern (PV "?else")) NoCond;
  mkRewrite "if-elim" if_elim_lhs (RhsPattern (PV "?else"))
    (CondEqual (PLet (PV "?x") (PV "?e") (PV "?then")) (PLet (PV "?x") (PV "?e") (PV "?else")));
  mkRewrite "add-comm" (PAdd (PV "?a") (PV "?b")) (RhsPattern (PAdd (PV "?b") (PV "?a"))) NoCond;
  mkRewrite "add-assoc" (PAdd (PAdd (PV "?a") (PV "?b")) (PV "?c"))
    (RhsPattern (PAdd (PV "?a") (PAdd (PV "?b") (PV "?c")))) NoCond;
  mkRewrite "eq-comm" (PEq (PV "?a") (PV "?b")) (RhsPattern (PEq (PV "?b") (PV "?a"))) NoCond;
  (* subst rules *)
  mkRewrite "fix" (PFix (PV "?v") (PV "?e"))
    (RhsPattern (PLet (PV "?v") (PFix (PV "?v") (PV "?e")) (PV "?e"))) NoCond;
  mkRewrite "beta" (PApp (PLam (PV "?v") (PV "?body")) (PV "?e"))
    (RhsPattern (PLet (PV "?v") (PV "?e") (PV "?body"))) NoCond;
  mkRewrite "let-app" (PLet (PV "?v") (PV "?e") (PApp (PV "?a") (PV "?b")))
    (RhsPattern (PApp (PLet (PV "?v") (PV "?e") (PV "?a")) (PLet (PV "?v") (PV "?e") (PV "?b"))))
    NoCond;
  mkRewrite "let-add" (PLet (PV "?v") (PV "?e") (PAdd (PV "?a") (PV "?b")))
    (RhsPattern (PAdd (PLet (PV "?v") (PV "?e") (PV "?a")) (PLet (PV "?v") (PV "?e") (PV "?b"))))
    NoCond;
  mkRewrite "let-eq" (PLet (PV "?v") (PV "?e") (PEq (PV "?a") (PV "?b")))
    (RhsPattern (PEq (PLet (PV "?v") (PV "?e") (PV "?a")) (PLet (PV "?v") (PV "?e") (PV "?b"))))
    NoCond;
  mkRewrite "let-const" (PLet (PV "?v") (PV "?e") (PV "?c")) (RhsPattern (PV "?c"))
    (CondIsConst "?c");
  mkRewrite "let-if" (PLet (PV "?v") (PV "?e") (PIf (PV "?cond") (PV "?then") (PV "?else")))
    (RhsPattern (PIf (PLet (PV "?v") (PV "?e") (PV "?cond"))
                     (PLet (PV "?v") (PV "?e") (PV "?then"))
                     (PLet (PV "?v") (PV "?e") (PV "?else")))) NoCond;
  mkRewrite "let-var-same" (PLet (PV "?v1") (PV "?e") (PVar (PV "?v1"))) (RhsPattern (PV "?e"))
    NoCond;
  mkRewrite "let-var-diff" (PLet (PV "?v1") (PV "?e") (PVar (PV "?v2")))
    (RhsPattern (PVar (PV "?v2"))) (CondNotSameVar "?v1" "?v2");
  mkRewrite "let-lam-same" (PLet (PV "?v1") (PV "?e") (PLam (PV "?v1") (PV "?body")))
    (RhsPattern (PLam (PV "?v1") (PV "?body"))) NoCond;
  mkRewrite "let-lam-diff" let_lam_diff_lhs (RhsCapture let_lam_diff_applier)
    (CondNotSameVar "?v1" "?v2")
].

(** The substitution variables a rule reads after a match: those of its
    condition and of its right-hand side ([CaptureAvoid] reads [v2] and [e]
    and binds [fresh] itself before instantiating [if_free]). *)
Definition cond_vars (c : Cond) : list string :=
  match c with
  | NoCond => []
  | CondEqual p1 p2 => pvars p1 ++ pvars p2
  | CondNotSameVar v1 v2 => [v1; v2]
  | CondIsConst v => [v]
  end.

Definition rhs_vars (r : Rhs) : list string :=
  match r with
  | RhsPattern p => pvars p
  | RhsCapture ca =>
      [ca_v2 ca; ca_e ca] ++ pvars (if_not_free ca) ++
      filter (fun v => v <> ca_fresh ca) (pvars (if_free ca))
  end.

Definition rule_reads (r : Rewrite) : list string :=
  cond_vars (rw_cond r) ++ rhs_vars (rw_rhs r).

(** ** Concrete e-graphs *)

(** [2 + 2], with the literals interned. *)
Definition sum_graph : EGraph := add_all empty_egraph [Num 2; Num 2; Add 0 0].

(** [(let x (var y) (lam y (var x)))] (spec, section 8): ids
    0 [x], 1 [y], 2 [(var y)], 3 [(var x)], 4 [(lam y (var x))], 5 the let. *)
Definition capture_graph : EGraph :=
  add_all empty_egraph [Symbol "x"; Symbol "y"; Var 1; Var 0; Lam 1 3; Let 0 2 4].

(** [(let x (var y) (lam y (app (var x) (var _8))))]: a program that uses
    the symbol [_8]; ids 0 [x], 1 [y], 2 [(var y)], 3 [(var x)], 4 [_8],
    5 [(var _8)], 6 the app, 7 the lam, 8 the let. *)
Definition underscore_graph : EGraph :=
  add_all empty_egraph
    [Symbol "x"; Symbol "y"; Var 1; Var 0; Symbol "_8"; Var 4; App 3 5;
     Lam 1 6; Let 0 2 7].

(** [(let x (num 1) (lam y (var x)))]: ids 0 [x], 1 [y], 2 [(num 1)],
    3 [(var x)], 4 [(lam y (var x))], 5 the let; [y] is not free in the
    bound expression. *)
Definition closed_let_graph : EGraph :=
  add_all empty_egraph [Symbol "x"; Symbol "y"; Num 1; Var 0; Lam 1 3; Let 0 2 4].

(** [(let x (num 1) (var x))]: ids 0 [x], 1 [(num 1)], 2 [(var x)],
    3 the let. *)
Definition var_same_graph : EGraph :=
  add_all empty_egraph [Symbol "x"; Num 1; Var 0; Let 0 1 2].

(** [(let x (num 1) (num 2))]: ids 0 [x], 1 [(num 1)], 2 [(num 2)], 3 the
    let. *)
Definition let_const_graph : EGraph :=
  add_all empty_egraph [Symbol "x"; Num 1; Num 2; Let 0 1 2].

(** [(+ 2 2)] just inserted, before [modify] runs on it: ids 0 [(num 2)],
    1 the sum, whose constant [(num 4)] is not in the graph yet. *)
Definition pre_modify_graph : EGraph :=
  (insert_new (add_all empty_egraph [Num 2]) (Add 0 0)).1.

(** [bench_pats] of [lambda_bench_meta], parsed. *)
Definition bench_pats : list Pattern := [
  PIf (PBool true) (PV "?then") (PV "?else");
  PIf (PBool false) (PV "?then") (PV "?else");
  PIf (PEq (PVar (PV "?x")) (PV "?e")) (PV "?then") (PV "?else");
  PAdd (PV "?a") (PV "?b");
  PAdd (PAdd (PV "?a") (PV "?b")) (PV "?c");
  PEq (PV "?a") (PV "?b");
  PFix (PV "?v") (PV "?e");
  PApp (PLam (PV "?v") (PV "?body")) (PV "?e");
  PLet (PV "?v") (PV "?e") (PApp (PV "?a") (PV "?b"));
  PLet (PV "?v") (PV "?e") (PAdd (PV "?a") (PV "?b"));
  PLet (PV "?v") (PV "?e") (PEq (PV "?a") (PV "?b"));
  PLet (PV "?v") (PV "?e") (PV "?c");
  PLet (PV "?v") (PV "?e") (PIf (PV "?cond") (PV "?then") (PV "?else"));
  PLet (PV "?v1") (PV "?e") (PVar (PV "?v1"));
  PLet (PV "?v1") (PV "?e") (PLam (PV "?v1") (PV "?body"))
].

(** * Theorems *)

(** ** Merge *)

Lemma retain_is_intersection (X Y : gset Id) :
  filter (fun i => i ∈ Y) X = X ∩ Y.
Proof.
  apply leibniz_equiv. intros i.
  rewrite elem_of_filter, elem_of_intersection. tauto.
Qed.

Lemma merge_free (to from : Data) :
  free (fst (merge to from)) = free to ∩ free from.
Proof.
  unfold merge.
  destruct (is_none_b (constant to) && _); [|destruct (negb _)];
    apply retain_is_intersection.
Qed.

Lemma merge_constant (to from : Data) :
  constant (fst (merge to from)) =
  match constant to with Some c => Some c | None => constant from end.
Proof.
  unfold merge.
  destruct (constant to), (constant from); simpl;
    try destruct (negb _); reflexivity.
Qed.

(** C1: after [merge to from], [to.free] is exactly the intersection of
    the two free sets as they were before the merge. *)
Theorem merge_free_is_intersection (to from : Data) :
  free (fst (merge to from)) = free to ∩ free from.
Proof. apply merge_free. Qed.

(** C5: [merge] keeps [to.constant] when it is set and adopts
    [from.constant] only when it is absent; over any sequence of merges
    into [to], the resulting constant is the first known one. *)
Theorem constant_first_known_wins :
  (forall to from : Data,
     constant (fst (merge to from)) =
     match constant to with Some c => Some c | None => constant from end) /\
  (forall (to : Data) (froms : list Data),
     constant (merge_all to froms) =
     first_known (constant to :: map constant froms)).
Proof.
  split; [apply merge_constant|].
  intros to froms. revert to.
  induction froms as [|f fs IH]; intros to; simpl.
  - destruct (constant to); reflexivity.
  - unfold merge_all in *. simpl. rewrite IH, merge_constant. simpl.
    destruct (constant to); simpl; [|reflexivity].
    induction fs as [|f' fs' IH']; simpl; [reflexivity|].
    destruct (constant f'); reflexivity.
Qed.

(** C9: [merge] reports [Some(Greater)] exactly when [to.free] kept its
    size and no constant was adopted, and [None] otherwise; it never reports
    [Less] or [Equal], also when [from] differs from the merged result. *)
Theorem merge_reports_greater_or_none (to from : Data) :
  snd (merge to from) =
    (if (is_none_b (constant to) && negb (is_none_b (constant from))) ||
        negb (Nat.eqb (size (free to)) (size (free to ∩ free from)))
     then None else Some Greater) /\
  snd (merge to from) <> Some Less /\
  snd (merge to from) <> Some Equal /\
  (let to0 := mkData {[1]} None in
   let from0 := mkData {[1; 2]} None in
   snd (merge to0 from0) = Some Greater /\ fst (merge to0 from0) <> from0) /\
  (let to1 := mkData ∅ (Some (Num 1)) in
   let from1 := mkData ∅ (Some (Num 2)) in
   snd (merge to1 from1) = Some Greater /\ fst (merge to1 from1) <> from1).
Proof.
  assert (Hs : snd (merge to from) =
    (if (is_none_b (constant to) && negb (is_none_b (constant from))) ||
        negb (Nat.eqb (size (free to)) (size (free to ∩ free from)))
     then None else Some Greater)).
  { unfold merge. rewrite retain_is_intersection.
    destruct (is_none_b (constant to) && _); simpl; [reflexivity|].
    destruct (negb _); reflexivity. }
  split; [exact Hs|].
  split; [rewrite Hs; destruct (_ || _); discriminate|].
  split; [rewrite Hs; destruct (_ || _); discriminate|].
  split; simpl; split.
  - unfold merge. simpl. rewrite retain_is_intersection.
    replace ({[1]} ∩ {[1; 2]} : gset Id) with ({[1]} : gset Id) by set_solver.
    reflexivity.
  - intros H. apply (f_equal free) in H. rewrite merge_free in H. simpl in H.
    assert (2 ∈ ({[1]} ∩ {[1; 2]} : gset Id)) as H2 by (rewrite H; set_solver).
    set_solver.
  - reflexivity.
  - intros H. apply (f_equal constant) in H. rewrite merge_constant in H.
    discriminate.
Qed.

(** ** Make *)

(** C3: [make] computes the free set by node kind: [{v}] for [Var(v)];
    [(free(b) \ {v}) ∪ free(a)] for [Let(v,a,b)]; [free(a) \ {v}] for
    [Lam(v,a)] and [Fix(v,a)]; the union of the children's free sets for
    every other kind. *)
Theorem make_free_rule (g : EGraph) :
  (forall v, free (make g (Var v)) = {[v]}) /\
  (forall v a b, free (make g (Let v a b)) = (free_of g b ∖ {[v]}) ∪ free_of g a) /\
  (forall v a, free (make g (Lam v a)) = free_of g a ∖ {[v]}) /\
  (forall v a, free (make g (Fix v a)) = free_of g a ∖ {[v]}) /\
  (forall n, match n with
             | Var _ | Let _ _ _ | Lam _ _ | Fix _ _ => True
             | _ => free (make g n) = ⋃ (free_of g <$> children n)
             end).
Proof.
  split; [reflexivity|].
  split; [intros; simpl; unfold_leibniz; set_solver|].
  split; [intros; simpl; unfold_leibniz; set_solver|].
  split; [intros; simpl; unfold_leibniz; set_solver|].
  intros []; simpl; try exact I; unfold_leibniz; set_solver.
Qed.

(** ** Constant evaluation and [i32] addition *)

Lemma wrap_i32_small (z : Z) : in_i32 z -> wrap_i32 z = z.
Proof.
  unfold in_i32, i32_min, i32_max, wrap_i32. intros Hz.
  rewrite Z.mod_small; lia.
Qed.

Lemma wrap_i32_in_range (z : Z) : in_i32 (wrap_i32 z).
Proof.
  unfold in_i32, i32_min, i32_max, wrap_i32.
  pose proof (Z.mod_pos_bound (z + 2 ^ 31) (2 ^ 32)). lia.
Qed.

Lemma wrap_i32_mod (z : Z) : (wrap_i32 z mod 2 ^ 32 = z mod 2 ^ 32)%Z.
Proof.
  unfold wrap_i32.
  pose proof (Z.div_mod (z + 2 ^ 31) (2 ^ 32) ltac:(lia)) as Hdm.
  replace ((z + 2 ^ 31) mod 2 ^ 32 - 2 ^ 31)%Z
    with (z + (- ((z + 2 ^ 31) / 2 ^ 32)) * 2 ^ 32)%Z by lia.
  apply Z.mod_add. lia.
Qed.

Lemma i32_add_in_range (p : Profile) (x y : Z) :
  in_i32 (x + y) -> i32_add p x y = Ret (x + y)%Z.
Proof.
  intros H. destruct p; simpl.
  - rewrite decide_True by exact H. reflexivity.
  - rewrite wrap_i32_small by exact H. reflexivity.
Qed.

Lemma lit_of_inj (v w : value) : lit_of v = lit_of w -> v = w.
Proof. destruct v, w; simpl; congruence. Qed.

Lemma const_fold_sound (p : Profile) (t : term) :
  no_overflow t -> const_fold p t = Ret (lit_of <$> sem t).
Proof.
  induction t as [b|n|a IHa b IHb|a IHa b IHb]; simpl; try reflexivity.
  - intros (Ha & Hb & Hr). rewrite (IHa Ha), (IHb Hb). simpl.
    unfold int_in_i32 in Hr. simpl in Hr.
    destruct (sem a) as [[xa|za]|]; simpl; try reflexivity.
    destruct (sem b) as [[xb|zb]|]; simpl; try reflexivity.
    rewrite (i32_add_in_range p za zb Hr). reflexivity.
  - intros (Ha & Hb). rewrite (IHa Ha), (IHb Hb). simpl.
    destruct (sem a) as [va|]; simpl; [|reflexivity].
    destruct (sem b) as [vb|]; simpl; [|reflexivity].
    do 3 f_equal. apply bool_decide_ext. split; [apply lit_of_inj|congruence].
Qed.

(** C4 (as corrected): [eval] folds [Bool]/[Num] to themselves; [Add(a,b)]
    folds to a [Num] only when both children report a [Num] constant, and
    to the exact sum when it fits in [i32]; [Eq(a,b)] folds to [Bool] of the
    value equality of the two constants when both are known; every other
    kind has no constant.  For terms built from literals, [+] and [=], the
    folded constant is the mathematical value whenever no [+] of the term
    overflows [i32]; an overflowing [+] wraps in a release build and
    panics in a debug build. *)
Theorem eval_folds_constants (p : Profile) :
  (forall x b, eval_with p x (Bool b) = Ret (Some (Bool b))) /\
  (forall x n, eval_with p x (Num n) = Ret (Some (Num n))) /\
  (forall x a b, (x a ≫= num = None \/ x b ≫= num = None) ->
     eval_with p x (Add a b) = Ret None) /\
  (forall x a b na nb, x a = Some (Num na) -> x b = Some (Num nb) ->
     in_i32 (na + nb) -> eval_with p x (Add a b) = Ret (Some (Num (na + nb)))) /\
  (forall x a b na nb, x a = Some (Num na) -> x b = Some (Num nb) ->
     ~ in_i32 (na + nb) ->
     eval_with Release x (Add a b) = Ret (Some (Num (wrap_i32 (na + nb)))) /\
     eval_with Debug x (Add a b) = Panic) /\
  (forall x a b, eval_with p x (Eq a b) =
     match x a, x b with
     | Some ca, Some cb => Ret (Some (Bool (bool_decide (ca = cb))))
     | _, _ => Ret None
     end) /\
  (forall x n, match n with
               | Bool _ | Num _ | Add _ _ | Eq _ _ => True
               | _ => eval_with p x n = Ret None
               end) /\
  (forall t, no_overflow t -> const_fold p t = Ret (lit_of <$> sem t)) /\
  const_fold p (TAdd (TNum 2) (TNum 2)) = Ret (Some (Num 4)) /\
  const_fold p (TEq (TNum 3) (TNum 3)) = Ret (Some (Bool true)).
Proof.
  split; [reflexivity|]. split; [reflexivity|].
  split.
  { intros x a b [H|H]; simpl; rewrite H; [reflexivity|].
    destruct (x a ≫= num); reflexivity. }
  split.
  { intros x a b na nb Ha Hb Hr. simpl. rewrite Ha, Hb. simpl.
    rewrite (i32_add_in_range p na nb Hr). reflexivity. }
  split.
  { intros x a b na nb Ha Hb Hov. simpl. rewrite Ha, Hb. simpl.
    rewrite decide_False by exact Hov. split; reflexivity. }
  split; [reflexivity|].
  split; [intros x []; simpl; first [exact I | reflexivity]|].
  split; [apply const_fold_sound|].
  split; apply const_fold_sound; simpl; unfold int_in_i32, in_i32, i32_min, i32_max;
    simpl; repeat split; lia.
Qed.

(** C4, as stated, fails: [Add(IntLit(2147483647), IntLit(1))], built from
    two [i32] literals, folds in a release build to [IntLit(-2147483648)],
    not to the mathematical value [2147483648]. *)
Lemma eval_fold_overflow_counterexample :
  ~ (forall (p : Profile) (t : term),
       lits_in_i32 t -> const_fold p t = Ret (lit_of <$> sem t)).
Proof.
  intros H.
  specialize (H Release (TAdd (TNum 2147483647) (TNum 1))).
  assert (Hw : lits_in_i32 (TAdd (TNum 2147483647) (TNum 1)))
    by (simpl; unfold in_i32, i32_min, i32_max; lia).
  specialize (H Hw). vm_compute in H. discriminate H.
Qed.

(** C10: [+] on two [Num] constants is Rust's [i32] addition: the exact sum
    when it is in range; outside the range the release build wraps it to
    the [i32] congruent to it modulo [2^32] (which differs from the sum) and
    a debug build panics. *)
Theorem add_fold_is_i32_add (p : Profile) (x : Id -> option Lambda) (a b : Id)
    (na nb : Z) (Ha : x a = Some (Num na)) (Hb : x b = Some (Num nb)) :
  (in_i32 (na + nb) -> eval_with p x (Add a b) = Ret (Some (Num (na + nb)))) /\
  (~ in_i32 (na + nb) ->
     (p = Release ->
        eval_with p x (Add a b) = Ret (Some (Num (wrap_i32 (na + nb)))) /\
        in_i32 (wrap_i32 (na + nb)) /\
        wrap_i32 (na + nb) <> (na + nb)%Z /\
        (wrap_i32 (na + nb) mod 2 ^ 32 = (na + nb) mod 2 ^ 32)%Z) /\
     (p = Debug -> eval_with p x (Add a b) = Panic)).
Proof.
  simpl. rewrite Ha, Hb. simpl. split.
  - intros Hr. rewrite (i32_add_in_range p na nb Hr). reflexivity.
  - intros Hr. split; intros ->; simpl.
    + split; [reflexivity|]. split; [apply wrap_i32_in_range|].
      split; [|apply wrap_i32_mod].
      intros Heq. apply Hr. rewrite <- Heq. apply wrap_i32_in_range.
    + rewrite decide_False by exact Hr. reflexivity.
Qed.

Lemma add_fold_is_i32_add_witness :
  (let x := child_consts (Some (Num 2147483647)) (Some (Num 1)) in
   x 0 = Some (Num 2147483647) /\ x 1 = Some (Num 1) /\
   eval_with Release x (Add 0 1) = Ret (Some (Num (-2147483648)))).
Proof.
  cbv zeta. split; [reflexivity|]. split; [reflexivity|].
  destruct (add_fold_is_i32_add Release
              (child_consts (Some (Num 2147483647)) (Some (Num 1))) 0 1
              2147483647 1 eq_refl eq_refl) as [_ Hover].
  destruct Hover as [Hrel _].
  - unfold in_i32, i32_min, i32_max. lia.
  - destruct (Hrel eq_refl) as [Hev _]. rewrite Hev. vm_compute. reflexivity.
Defined.

(** ** The e-graph model: invariant and union-find lemmas *)

Section EGraphFacts.

Lemma egraph_inv_check_sound (g : EGraph) :
  egraph_inv_check g = true -> egraph_inv g.
Proof.
  unfold egraph_inv_check, egraph_inv.
  intros H. apply andb_prop in H as [H H3]. apply andb_prop in H as [H1 H2].
  apply bool_decide_eq_true in H1. apply bool_decide_eq_true in H3.
  split; [exact H1|]. split; [|exact H3].
  intros i Hi. rewrite forallb_forall in H2.
  specialize (H2 (N.to_nat i)). rewrite N2Nat.id in H2.
  apply (bool_decide_eq_true_1 (is_Some (uf g !! i))), H2. apply in_seq. lia.
Qed.

Variable g : EGraph.
Hypothesis Hinv : egraph_inv g.

Lemma find_lt (x : Id) : x < next_id g -> find g x < next_id g.
Proof.
  destruct Hinv as (Hm & _ & _). unfold find. intros Hx.
  destruct (uf g !! x) as [r|] eqn:E; simpl; [|exact Hx].
  apply (map_Forall_lookup_1 _ _ _ _ Hm E).
Qed.

Lemma find_root (x : Id) : x < next_id g -> uf g !! find g x = Some (find g x).
Proof.
  destruct Hinv as (Hm & Hc & _). intros Hx. unfold find.
  destruct (Hc x Hx) as [r E]. rewrite E. simpl.
  apply (map_Forall_lookup_1 _ _ _ _ Hm E).
Qed.

Lemma find_idem (x : Id) : x < next_id g -> find g (find g x) = find g x.
Proof. intros Hx. unfold find at 1. rewrite (find_root x Hx). reflexivity. Qed.

Lemma uf_next_none : uf g !! next_id g = None.
Proof.
  destruct Hinv as (Hm & _ & _).
  destruct (uf g !! next_id g) as [r|] eqn:E; [|reflexivity].
  pose proof (map_Forall_lookup_1 _ _ _ _ Hm E) as (H & _). lia.
Qed.

Lemma find_next : find g (next_id g) = next_id g.
Proof. unfold find. rewrite uf_next_none. reflexivity. Qed.

Lemma memo_lookup_lt (n : Lambda) (i : Id) :
  memo_lookup (memo g) n = Some i -> i < next_id g.
Proof.
  destruct Hinv as (_ & _ & Hmemo). revert Hmemo.
  generalize (memo g) as m. induction m as [|[n' i'] m IH]; simpl; [discriminate|].
  intros Hf. apply Forall_cons in Hf as [Hh Ht].
  case_decide; [intros [= <-]; exact Hh|]. apply IH, Ht.
Qed.

Lemma insert_new_inv (n : Lambda) : egraph_inv (insert_new g n).1.
Proof.
  destruct Hinv as (Hm & Hc & Hmemo). unfold insert_new. simpl.
  split; [|split].
  - apply map_Forall_insert_2; cbn.
    + split; [lia|]. split; [lia|]. apply lookup_insert_eq.
    + eapply map_Forall_impl; [exact Hm|]. simpl.
      intros i r (Hi & Hr & Hrr). split; [lia|]. split; [lia|].
      rewrite lookup_insert_ne by lia. exact Hrr.
  - intros i Hi. cbn in Hi |- *. destruct (decide (i = next_id g)) as [->|Hne].
    + rewrite lookup_insert_eq. eauto.
    + rewrite lookup_insert_ne by congruence. apply Hc. lia.
  - constructor; [simpl; lia|].
    eapply Forall_impl; [exact Hmemo|]. simpl. intros. lia.
Qed.

Lemma insert_new_find (n : Lambda) (x : Id) : find (insert_new g n).1 x = find g x.
Proof.
  unfold insert_new, find at 1. simpl.
  destruct (decide (x = next_id g)) as [->|Hne].
  - rewrite lookup_insert_eq. symmetry. apply find_next.
  - rewrite lookup_insert_ne by congruence. reflexivity.
Qed.

Lemma add_raw_ok (n : Lambda) :
  egraph_inv (add_raw g n).1 /\ next_id g <= next_id (add_raw g n).1 /\
  (add_raw g n).2 < next_id (add_raw g n).1 /\
  (forall x, find (add_raw g n).1 x = find g x).
Proof.
  unfold add_raw. destruct (memo_lookup _ _) as [i|] eqn:E; simpl.
  - split; [exact Hinv|]. split; [lia|]. split; [|reflexivity].
    apply find_lt. eapply memo_lookup_lt; exact E.
  - split; [apply insert_new_inv|]. simpl. split; [lia|]. split; [lia|].
    apply insert_new_find.
Qed.

Lemma union_raw_find (a b x : Id) :
  a < next_id g -> b < next_id g -> find g a <> find g b ->
  find (union_raw g a b) x =
  if decide (find g x = find g b) then find g a else find g x.
Proof.
  intros Ha Hb Hne. unfold union_raw, find at 1. simpl.
  destruct (decide (x = find g b)) as [->|Hx].
  - rewrite lookup_insert_eq, (find_idem b Hb), decide_True by reflexivity.
    reflexivity.
  - rewrite lookup_insert_ne by congruence. rewrite lookup_fmap.
    destruct (uf g !! x) as [r|] eqn:E; simpl.
    + replace (find g x) with r by (unfold find; rewrite E; reflexivity).
      reflexivity.
    + replace (find g x) with x by (unfold find; rewrite E; reflexivity).
      rewrite decide_False by exact Hx. reflexivity.
Qed.

Lemma union_raw_inv (a b : Id) :
  a < next_id g -> b < next_id g -> find g a <> find g b ->
  egraph_inv (union_raw g a b).
Proof.
  intros Ha Hb Hne. pose proof Hinv as (Hm & Hc & Hmemo).
  pose proof (find_lt a Ha) as Hra. pose proof (find_lt b Hb) as Hrb.
  pose proof (find_root a Ha) as Hroota.
  assert (Hra' : ((fun r => if decide (r = find g b) then find g a else r) <$> uf g)
                   !! find g a = Some (find g a)).
  { rewrite lookup_fmap, Hroota. simpl. rewrite decide_False by exact Hne. reflexivity. }
  unfold union_raw, egraph_inv. simpl. split; [|split].
  - apply map_Forall_insert_2.
    + split; [exact Hrb|]. split; [exact Hra|].
      rewrite lookup_insert_ne by congruence. exact Hra'.
    + apply map_Forall_lookup_2. intros i r' E.
      rewrite lookup_fmap in E.
      destruct (uf g !! i) as [r|] eqn:Ei; simpl in E; [|discriminate].
      injection E as <-.
      pose proof (map_Forall_lookup_1 _ _ _ _ Hm Ei) as (Hi & Hr & Hrr).
      destruct (decide (r = find g b)) as [->|Hrb'].
      * split; [exact Hi|]. split; [exact Hra|].
        rewrite lookup_insert_ne by congruence. exact Hra'.
      * split; [exact Hi|]. split; [exact Hr|].
        rewrite lookup_insert_ne by congruence.
        rewrite lookup_fmap, Hrr. simpl. rewrite decide_False by exact Hrb'.
        reflexivity.
  - intros i Hi. destruct (decide (i = find g b)) as [->|Hib].
    + rewrite lookup_insert_eq. eauto.
    + rewrite lookup_insert_ne by congruence. rewrite lookup_fmap.
      destruct (Hc i Hi) as [r ->]. simpl. eauto.
  - exact Hmemo.
Qed.

End EGraphFacts.

Lemma modify_with_ok (un : EGraph -> Id -> Id -> EGraph) :
  union_ok un ->
  forall g id, egraph_inv g -> id < next_id g ->
    egraph_inv (modify_with un g id) /\ next_id g <= next_id (modify_with un g id) /\
    (forall x y, find g x = find g y ->
       find (modify_with un g id) x = find (modify_with un g id) y).
Proof.
  intros Hun g id Hg Hid. unfold modify_with.
  destruct (constant_of g id) as [c|]; [|split; [exact Hg|split; [lia|tauto]]].
  pose proof (add_raw_ok g Hg c) as (Hg1 & Hn1 & Hc1 & Hf1).
  destruct (add_raw g c) as [g1 cid]. simpl in *.
  destruct (Hun g1 id cid Hg1 ltac:(lia) Hc1) as (Hg2 & Hn2 & Hf2).
  split; [exact Hg2|]. split; [lia|].
  intros x y Hxy. apply Hf2. rewrite !Hf1. exact Hxy.
Qed.

Lemma union_f_ok (k : nat) : union_ok (union_f k).
Proof.
  induction k as [|k IH]; intros g a b Hg Ha Hb; simpl.
  - split; [exact Hg|]. split; [lia|]. tauto.
  - case_decide as Heq; [split; [exact Hg|split; [lia|tauto]]|].
    pose proof (union_raw_inv g Hg a b Ha Hb Heq) as Hg1.
    destruct (modify_with_ok (union_f k) IH (union_raw g a b) (find g a) Hg1
                (find_lt g Hg a Ha)) as (Hg2 & Hn2 & Hf2).
    split; [exact Hg2|]. split; [simpl in Hn2; exact Hn2|].
    intros x y Hxy. apply Hf2.
    rewrite !(union_raw_find g Hg a b _ Ha Hb Heq), Hxy. reflexivity.
Qed.

Lemma union_f_joins (k : nat) (g : EGraph) (a b : Id) :
  egraph_inv g -> a < next_id g -> b < next_id g ->
  find (union_f (S k) g a b) a = find (union_f (S k) g a b) b.
Proof.
  intros Hg Ha Hb. simpl. case_decide as Heq; [exact Heq|].
  pose proof (union_raw_inv g Hg a b Ha Hb Heq) as Hg1.
  destruct (modify_with_ok (union_f k) (union_f_ok k) (union_raw g a b) (find g a) Hg1
              (find_lt g Hg a Ha)) as (_ & _ & Hf2).
  apply Hf2. rewrite !(union_raw_find g Hg a b _ Ha Hb Heq).
  rewrite decide_False by exact Heq. rewrite decide_True by reflexivity. reflexivity.
Qed.

(** ** Post-merge hook *)

(** C6: [modify] leaves the e-graph untouched when the class has no
    constant; when it has constant [c], it adds [c] (the interned node when
    the table has it, a new node otherwise) and unions the class of [c]
    with the class, after which both ids are in one class.  ([make] and
    [merge] have no e-graph in their result: [modify] is the analysis's only
    e-graph update.) *)
Theorem modify_unions_with_constant (g : EGraph) (id : Id)
    (Hg : egraph_inv g) (Hid : id < next_id g) :
  (constant_of g id = None -> modify g id = g) /\
  (forall c, constant_of g id = Some c ->
     let '(g1, const_id) := add_raw g c in
     modify g id = union g1 id const_id /\
     (exists i, memo_lookup (memo g1) (map_children (find g) c) = Some i /\
                find g1 i = const_id) /\
     (forall i, memo_lookup (memo g) (map_children (find g) c) = Some i ->
                g1 = g /\ const_id = find g i) /\
     find (modify g id) id = find (modify g id) const_id).
Proof.
  split; [intros H; unfold modify, modify_with; rewrite H; reflexivity|].
  intros c Hc.
  pose proof (add_raw_ok g Hg c) as (Hg1 & Hn1 & Hc1 & _).
  assert (Hmod : modify g id = union (add_raw g c).1 id (add_raw g c).2).
  { unfold modify, modify_with. rewrite Hc. destruct (add_raw g c); reflexivity. }
  assert (Hmemo : exists i, memo_lookup (memo (add_raw g c).1)
                              (map_children (find g) c) = Some i /\
                            find (add_raw g c).1 i = (add_raw g c).2).
  { unfold add_raw.
    destruct (memo_lookup (memo g) (map_children (find g) c)) as [i|] eqn:E; simpl.
    - exists i. split; [exact E|reflexivity].
    - exists (next_id g). rewrite decide_True by reflexivity. split; [reflexivity|].
      unfold find. simpl. rewrite lookup_insert_eq. reflexivity. }
  assert (Hreuse : forall i, memo_lookup (memo g) (map_children (find g) c) = Some i ->
                   (add_raw g c).1 = g /\ (add_raw g c).2 = find g i).
  { intros i E. unfold add_raw. rewrite E. split; reflexivity. }
  assert (Hjoin : find (modify g id) id = find (modify g id) (add_raw g c).2).
  { rewrite Hmod. apply union_f_joins; [exact Hg1|lia|exact Hc1]. }
  destruct (add_raw g c) as [g1 cid]. simpl in *.
  split; [exact Hmod|]. split; [exact Hmemo|]. split; [exact Hreuse|exact Hjoin].
Qed.

Lemma modify_unions_with_constant_witness :
  let g := pre_modify_graph in
  egraph_inv g /\ 1 < next_id g /\
  constant_of g 1 = Some (Num 4) /\
  memo_lookup (memo g) (Num 4) = None /\
  add_raw g (Num 4) = ((insert_new g (Num 4)).1, 2) /\
  next_id (modify g 1) = 3 /\
  find (modify g 1) 1 = find (modify g 1) 2.
Proof.
  intros g.
  assert (Hg : egraph_inv g)
    by (apply egraph_inv_check_sound; vm_compute; reflexivity).
  assert (Hid : 1 < next_id g) by (vm_compute; reflexivity).
  assert (Hc : constant_of g 1 = Some (Num 4)) by (vm_compute; reflexivity).
  assert (Ha : add_raw g (Num 4) = ((insert_new g (Num 4)).1, 2))
    by (vm_compute; reflexivity).
  split; [exact Hg|]. split; [exact Hid|]. split; [exact Hc|].
  split; [vm_compute; reflexivity|]. split; [exact Ha|].
  split; [vm_compute; reflexivity|].
  destruct (modify_unions_with_constant g 1 Hg Hid) as [_ H].
  specialize (H (Num 4) Hc). rewrite Ha in H.
  destruct H as (_ & _ & _ & Hj). exact Hj.
Defined.

(** ** Rules with side conditions *)

(** Adding a node that has no constant runs no [modify] union. *)
Lemma add_no_constant (g : EGraph) (n : Lambda) :
  eval g (map_children (find g) n) = None -> add g n = add_raw g n.
Proof.
  intros Hev. unfold add, add_raw.
  destruct (memo_lookup (memo g) (map_children (find g) n)); [reflexivity|].
  unfold insert_new, modify, modify_with, constant_of, data, find. simpl.
  rewrite !lookup_insert_eq. simpl. unfold find in Hev. rewrite Hev. reflexivity.
Qed.

Lemma add_let (g : EGraph) (v a b : Id) : add g (Let v a b) = add_raw g (Let v a b).
Proof. apply add_no_constant. reflexivity. Qed.

(** C7: "if-elim" returns [?else] (to be unioned with the matched
    [(if (= (var ?x) ?e) ?then ?else)] class) exactly when the condition
    finds [(let ?x ?e ?then)] and [(let ?x ?e ?else)] already equal: the same
    node, or two nodes of the current graph in one class. *)
Theorem if_elim_fires_iff_lets_equal (g : EGraph) (eclass : Id) (s : Subst)
    (Hg : egraph_inv g) :
  snd (if_elim g eclass s) =
  if lets_known_equal g s then [subst_get s "?else"] else [].
Proof.
  unfold if_elim, conditional_applier, if_elim_cond, condition_equal,
    pattern_applier, lets_known_equal.
  cbn [apply_pat]. rewrite add_let.
  set (x := subst_get s "?x"). set (e := subst_get s "?e").
  set (t := subst_get s "?then"). set (el := subst_get s "?else").
  set (n1 := Let (find g x) (find g e) (find g t)).
  set (n2 := Let (find g x) (find g e) (find g el)).
  unfold add_raw at 1. cbn [map_children]. fold n1.
  destruct (memo_lookup (memo g) n1) as [i1|] eqn:E1.
  - rewrite add_let. unfold add_raw. cbn [map_children fst snd]. fold n2.
    destruct (memo_lookup (memo g) n2) as [i2|] eqn:E2; cbn [fst snd].
    + destruct (bool_decide (n1 = n2)) eqn:Hn; simpl.
      * apply bool_decide_eq_true in Hn. rewrite Hn in E1.
        rewrite E1 in E2. injection E2 as ->.
        rewrite bool_decide_true by reflexivity. reflexivity.
      * destruct (bool_decide (find g i1 = find g i2)); reflexivity.
    + simpl.
      rewrite bool_decide_false.
      2:{ pose proof (find_lt g Hg i1 (memo_lookup_lt g Hg _ _ E1)). lia. }
      rewrite bool_decide_false; [reflexivity|].
      intros Hn. rewrite Hn in E1. congruence.
  - destruct (insert_new g n1) as [g1 a1] eqn:Ei.
    assert (Hf1 : forall y, find g1 y = find g y)
      by (intros y; rewrite <- (insert_new_find g Hg n1), Ei; reflexivity).
    assert (Ha1 : a1 = next_id g) by (unfold insert_new in Ei; congruence).
    assert (Hm1 : memo g1 = (n1, next_id g) :: memo g)
      by (unfold insert_new in Ei; injection Ei as <- _; reflexivity).
    assert (Hu1 : uf g1 = <[next_id g := next_id g]> (uf g))
      by (unfold insert_new in Ei; injection Ei as <- _; reflexivity).
    assert (Hn1 : next_id g1 = next_id g + 1)
      by (unfold insert_new in Ei; injection Ei as <- _; reflexivity).
    rewrite add_let. unfold add_raw. cbn [map_children].
    rewrite !Hf1. fold n2. rewrite Hm1. cbn [memo_lookup].
    destruct (decide (n2 = n1)) as [Hn|Hn]; cbn [fst snd].
    + rewrite (bool_decide_true (n1 = n2)) by (symmetry; exact Hn). simpl.
      rewrite bool_decide_true; [reflexivity|].
      unfold find. rewrite Hu1, lookup_insert_eq. simpl. congruence.
    + rewrite (bool_decide_false (n1 = n2)) by congruence. simpl.
      destruct (memo_lookup (memo g) n2) as [i2|] eqn:E2; simpl.
      * rewrite bool_decide_false; [reflexivity|].
        rewrite Hf1, Ha1.
        pose proof (find_lt g Hg i2 (memo_lookup_lt g Hg _ _ E2)). lia.
      * unfold insert_new. simpl.
        rewrite bool_decide_false; [reflexivity|]. rewrite Hn1, Ha1. lia.
Qed.

Lemma if_elim_fires_iff_lets_equal_witness :
  egraph_inv capture_graph /\
  snd (if_elim capture_graph 5
         (<["?x" := 0]> (<["?e" := 2]> (<["?then" := 4]> (<["?else" := 4]> ∅))))) = [4].
Proof.
  assert (Hg : egraph_inv capture_graph)
    by (apply egraph_inv_check_sound; vm_compute; reflexivity).
  split; [exact Hg|].
  rewrite (if_elim_fires_iff_lets_equal capture_graph 5 _ Hg).
  vm_compute. reflexivity.
Defined.

(** ** The capture-avoiding applier *)

(** C2: "let-lam-diff" does nothing unless [?v1] and [?v2] are in
    different classes; then it branches on whether [?v2] is in the free set
    of [?e]'s class: if not, it instantiates [(lam ?v2 (let ?v1 ?e ?body))];
    if so, it adds the symbol [_<eclass>] named after the target class and
    instantiates [(lam ?fresh (let ?v1 ?e (let ?v2 (var ?fresh) ?body)))]
    with [?fresh] bound to it. *)
Theorem let_lam_diff_branches (g : EGraph) (eclass : Id) (s : Subst) :
  let v1 := subst_get s "?v1" in
  let v2 := subst_get s "?v2" in
  let e := subst_get s "?e" in
  let_lam_diff g eclass s =
    if decide (find g v1 = find g v2) then (g, [])
    else if bool_decide (v2 ∈ free_of g e) then
      let '(g1, fresh) := add g (Symbol (fresh_name eclass)) in
      let '(g2, r) :=
        apply_pat g1 (<["?fresh" := fresh]> s)
          (PLam (PV "?fresh")
             (PLet (PV "?v1") (PV "?e") (PLet (PV "?v2") (PVar (PV "?fresh")) (PV "?body"))))
      in (g2, [r])
    else
      let '(g2, r) := apply_pat g s (PLam (PV "?v2") (PLet (PV "?v1") (PV "?e") (PV "?body")))
      in (g2, [r]).
Proof.
  cbv zeta. unfold let_lam_diff, conditional_applier, is_not_same_var.
  destruct (decide (find g (subst_get s "?v1") = find g (subst_get s "?v2"))) as [Heq|Hne].
  - rewrite bool_decide_false by tauto. reflexivity.
  - rewrite bool_decide_true by exact Hne.
    unfold capture_avoid_apply_one, pattern_applier. simpl.
    destruct (bool_decide _); [|reflexivity].
    destruct (add g _). reflexivity.
Qed.

(** The capture-avoidance example of the spec: rewriting
    [(let x (var y) (lam y (var x)))] adds [(lam _5 (let x (var y) (let y
    (var _5) (var x))))] to its class, whose free set stays [{y}], and never
    builds [(lam y (var y))]. *)
Example capture_avoidance_example :
  let g' := rewrite_class let_lam_diff_lhs let_lam_diff capture_graph 5 in
  memo_lookup (memo g') (Symbol "_5") = Some 6 /\
  Lam 6 9 ∈ nodes_of g' 5 /\
  memo_lookup (memo g') (Let 0 2 8) = Some 9 /\
  memo_lookup (memo g') (Let 1 7 3) = Some 8 /\
  memo_lookup (memo g') (Var 6) = Some 7 /\
  memo_lookup (memo g') (Lam 1 2) = None /\
  free_of g' 5 = {[1]}.
Proof. vm_compute. repeat split; try reflexivity. left. Qed.

(** C8 (as corrected): the fresh symbol is [_] followed by the decimal
    target class id: it is a function of that id alone, and distinct ids
    give distinct names.  The applier does not check that the name is
    unused: when a symbol of that name is already in the graph, [add]
    returns its existing class and leaves the graph as it is; when none is,
    the symbol gets a new class, distinct from every class of the graph. *)
Theorem fresh_name_from_class_id (eclass : Id) (g : EGraph)
    (Hg : egraph_inv g) :
  fresh_name eclass = "_" +:+ pretty eclass /\
  (forall j, fresh_name eclass = fresh_name j <-> eclass = j) /\
  (forall i, memo_lookup (memo g) (Symbol (fresh_name eclass)) = Some i ->
     add g (Symbol (fresh_name eclass)) = (g, find g i) /\ find g i < next_id g) /\
  (memo_lookup (memo g) (Symbol (fresh_name eclass)) = None ->
     snd (add g (Symbol (fresh_name eclass))) = next_id g /\
     (forall x, x < next_id g -> find g x <> next_id g)).
Proof.
  split; [reflexivity|]. split.
  { intros j. split; [|intros ->; reflexivity].
    unfold fresh_name. simpl. intros H. injection H as H. apply (inj pretty), H. }
  split.
  - intros i Hi. unfold add. simpl. rewrite Hi. split; [reflexivity|].
    apply (find_lt g Hg), (memo_lookup_lt g Hg _ _ Hi).
  - intros Hnew. split.
    + rewrite add_no_constant by reflexivity.
      unfold add_raw. simpl. rewrite Hnew. reflexivity.
    + intros x Hx. pose proof (find_lt g Hg x Hx). lia.
Qed.

Lemma fresh_name_from_class_id_witness :
  egraph_inv capture_graph /\
  memo_lookup (memo capture_graph) (Symbol (fresh_name 5)) = None /\
  snd (add capture_graph (Symbol (fresh_name 5))) = 6 /\
  egraph_inv underscore_graph /\
  memo_lookup (memo underscore_graph) (Symbol (fresh_name 8)) = Some 4 /\
  add underscore_graph (Symbol (fresh_name 8)) = (underscore_graph, 4).
Proof.
  assert (Hg : egraph_inv capture_graph)
    by (apply egraph_inv_check_sound; vm_compute; reflexivity).
  assert (Hn : memo_lookup (memo capture_graph) (Symbol (fresh_name 5)) = None)
    by (vm_compute; reflexivity).
  assert (Hu : egraph_inv underscore_graph)
    by (apply egraph_inv_check_sound; vm_compute; reflexivity).
  assert (Hs : memo_lookup (memo underscore_graph) (Symbol (fresh_name 8)) = Some 4)
    by (vm_compute; reflexivity).
  split; [exact Hg|]. split; [exact Hn|].
  split.
  { destruct (fresh_name_from_class_id 5 capture_graph Hg) as (_ & _ & _ & H).
    rewrite (proj1 (H Hn)). vm_compute. reflexivity. }
  split; [exact Hu|]. split; [exact Hs|].
  destruct (fresh_name_from_class_id 8 underscore_graph Hu) as (_ & _ & H & _).
  rewrite (proj1 (H 4 Hs)). vm_compute. reflexivity.
Defined.

(** C8, as stated, fails: in [(let x (var y) (lam y (app (var x) (var _8))))]
    the let is class 8, so "let-lam-diff" mints [_8], which is the program's
    own symbol (class 4): the new binder captures the free [_8] of the body,
    and the let's class loses [_8] from its free set. *)
Lemma fresh_name_collides_counterexample :
  let g := underscore_graph in
  let g' := rewrite_class let_lam_diff_lhs let_lam_diff g 8 in
  fresh_name 8 = "_8" /\
  memo_lookup (memo g) (Symbol "_8") = Some 4 /\
  snd (add g (Symbol (fresh_name 8))) = 4 /\
  free_of g 8 = {[1; 4]} /\
  memo_lookup (memo g') (Var 4) = Some 5 /\
  Lam 4 10 ∈ nodes_of g' 8 /\
  free_of g' 8 = {[1]}.
Proof. vm_compute. repeat split; try reflexivity. left. Qed.

(** ** The analysis, the rule set and the applier beyond the claims *)



Lemma eval_with_release_not_panic (x : Id -> option Lambda) (n : Lambda) :
  eval_with Release x n <> Panic.
Proof.
  destruct n; simpl; try discriminate.
  - destruct (x a ≫= num); [destruct (x b ≫= num)|]; simpl; discriminate.
  - destruct (x a), (x b); discriminate.
Qed.

Lemma bind_num_some (o : option Lambda) (z : Z) : o ≫= num = Some z <-> o = Some (Num z).
Proof.
  destruct o as [[]|]; simpl; split; intros H; try discriminate; try congruence.
Qed.

(** [eval] never panics in a release build; in a debug build it panics
    exactly on a [+] node whose two children hold numbers whose exact sum
    is outside the [i32] range. *)
Theorem eval_with_release_ret (x : Id -> option Lambda) (n : Lambda) :
  eval_with Release x n <> Panic /\
  (eval_with Debug x n = Panic <->
   exists a b na nb, n = Add a b /\ x a = Some (Num na) /\ x b = Some (Num nb) /\
                     ~ in_i32 (na + nb)).
Proof.
  split; [apply eval_with_release_not_panic|]. split.
  - destruct n; simpl; try discriminate.
    + destruct (x a ≫= num) as [na|] eqn:Ea; [|discriminate].
      destruct (x b ≫= num) as [nb|] eqn:Eb; [|discriminate].
      simpl. case_decide as Hin; [discriminate|]. intros _.
      exists a, b, na, nb. rewrite <- !bind_num_some. auto.
    + destruct (x a), (x b); discriminate.
  - intros (a & b & na & nb & -> & Ha & Hb & Hov). simpl.
    rewrite Ha, Hb. simpl. rewrite decide_False by exact Hov. reflexivity.
Qed.

(** A constant [eval] computes is always a literal: a [Bool], or a [Num]
    that is either the node itself or an [i32] sum. *)
Theorem eval_returns_literal (p : Profile) (x : Id -> option Lambda) (n : Lambda) (c : Lambda)
    (H : eval_with p x n = Ret (Some c)) :
  (exists b, c = Bool b) \/ (exists z, c = Num z /\ (n = Num z \/ in_i32 z)).
Proof.
  destruct n; simpl in H; try discriminate.
  - injection H as <-. eauto.
  - injection H as <-. eauto 6.
  - destruct (x a ≫= num) as [na|]; [|discriminate].
    destruct (x b ≫= num) as [nb|]; [|discriminate].
    destruct p; simpl in H.
    + case_decide; [|discriminate]. injection H as <-. right. eauto.
    + injection H as <-. right. exists (wrap_i32 (na + nb)). split; [reflexivity|].
      right. apply wrap_i32_in_range.
  - destruct (x a), (x b); try discriminate. injection H as <-. eauto.
Qed.

Lemma eval_returns_literal_witness :
  eval_with Release (child_consts (Some (Num i32_max)) (Some (Num 1))) (Add 0 1)
    = Ret (Some (Num i32_min)) /\
  ((exists b, Num i32_min = Bool b) \/
   (exists z, Num i32_min = Num z /\ (Add 0 1 = Num z \/ in_i32 z))).
Proof.
  assert (H : eval_with Release (child_consts (Some (Num i32_max)) (Some (Num 1))) (Add 0 1)
              = Ret (Some (Num i32_min))) by (vm_compute; reflexivity).
  split; [exact H|]. exact (eval_returns_literal _ _ _ _ H).
Defined.

(** Constant folding and the whole analysis data of a node agree with
    "add-comm" and "eq-comm": swapping the children of a [+] or [=] node
    changes neither [eval] (in either build) nor [make]. *)
Theorem make_respects_comm (p : Profile) (x : Id -> option Lambda) (g : EGraph) (a b : Id) :
  eval_with p x (Add a b) = eval_with p x (Add b a) /\
  eval_with p x (Eq a b) = eval_with p x (Eq b a) /\
  make g (Add a b) = make g (Add b a) /\
  make g (Eq a b) = make g (Eq b a).
Proof.
  assert (Hadd : eval_with p x (Add a b) = eval_with p x (Add b a)).
  { simpl. destruct (x a ≫= num) as [na|], (x b ≫= num) as [nb|]; try reflexivity.
    destruct p; simpl; rewrite Z.add_comm; reflexivity. }
  assert (Heq : eval_with p x (Eq a b) = eval_with p x (Eq b a)).
  { simpl. destruct (x a) as [ca|], (x b) as [cb|]; try reflexivity.
    do 3 f_equal. apply bool_decide_ext. split; intros; congruence. }
  assert (Hfree : forall c d : Id,
    foldl (fun acc i => acc ∪ free_of g i) ∅ [c; d] =
    foldl (fun acc i => acc ∪ free_of g i) ∅ [d; c]).
  { intros c d. simpl. set_solver. }
  split; [exact Hadd|]. split; [exact Heq|].
  unfold make, eval. simpl children. rewrite !(Hfree a b).
  split; f_equal.
  - simpl. destruct (constant_of g a ≫= num), (constant_of g b ≫= num); try reflexivity.
    simpl. rewrite Z.add_comm. reflexivity.
  - simpl. destruct (constant_of g a) as [ca|], (constant_of g b) as [cb|]; try reflexivity.
    do 2 f_equal. apply bool_decide_ext. split; intros; congruence.
Qed.

Lemma const_fold_release_ret (t : term) : exists c, const_fold Release t = Ret c.
Proof.
  induction t as [b|z|a [ca Ha] b [cb Hb]|a [ca Ha] b [cb Hb]]; simpl.
  - eauto.
  - eauto.
  - rewrite Ha, Hb. simpl.
    destruct (eval_with Release (child_consts ca cb) (Add 0 1)) eqn:E; eauto.
    exfalso. exact (eval_with_release_not_panic _ _ E).
  - rewrite Ha, Hb. simpl. destruct ca, cb; simpl; eauto.
Qed.

Lemma wrap_i32_eq_mod (x y : Z) : (x mod 2 ^ 32 = y mod 2 ^ 32)%Z -> wrap_i32 x = wrap_i32 y.
Proof.
  intros H. unfold wrap_i32.
  rewrite (Zplus_mod x), (Zplus_mod y), H. reflexivity.
Qed.

Lemma wrap_i32_assoc (x y z : Z) :
  wrap_i32 (wrap_i32 (x + y) + z) = wrap_i32 (x + wrap_i32 (y + z)).
Proof.
  apply wrap_i32_eq_mod.
  rewrite (Zplus_mod (wrap_i32 (x + y))), wrap_i32_mod, <- Zplus_mod.
  rewrite (Zplus_mod x (wrap_i32 (y + z))), wrap_i32_mod, <- Zplus_mod.
  f_equal. lia.
Qed.

Lemma eval_add_child_consts (p : Profile) (ca cb : option Lambda) :
  eval_with p (child_consts ca cb) (Add 0 1) =
  match ca ≫= num with
  | None => Ret None
  | Some na =>
      match cb ≫= num with
      | None => Ret None
      | Some nb => res_bind (i32_add p na nb) (fun s => Ret (Some (Num s)))
      end
  end.
Proof. reflexivity. Qed.

Lemma child_consts_0 (ca cb : option Lambda) : child_consts ca cb 0 = ca.
Proof. reflexivity. Qed.
Lemma child_consts_1 (ca cb : option Lambda) : child_consts ca cb 1 = cb.
Proof. reflexivity. Qed.

Lemma const_fold_add_release (t1 t2 : term) (c1 c2 : option Lambda) :
  const_fold Release t1 = Ret c1 -> const_fold Release t2 = Ret c2 ->
  const_fold Release (TAdd t1 t2) =
  Ret (match c1 ≫= num, c2 ≫= num with
       | Some x, Some y => Some (Num (wrap_i32 (x + y)))
       | _, _ => None
       end).
Proof.
  intros H1 H2. simpl. rewrite H1, H2. simpl.
  rewrite child_consts_0, child_consts_1.
  destruct (c1 ≫= num), (c2 ≫= num); reflexivity.
Qed.

(** Constant folding agrees with "add-assoc" in a release build (wrapping
    [+] is associative), and not in a debug build, where one grouping of
    [i32::MAX + 1 + -1] panics and the other folds to [i32::MAX]. *)
Theorem const_fold_add_assoc (ta tb tc : term) :
  const_fold Release (TAdd (TAdd ta tb) tc) = const_fold Release (TAdd ta (TAdd tb tc)) /\
  const_fold Debug (TAdd (TAdd (TNum i32_max) (TNum 1)) (TNum (-1))) = Panic /\
  const_fold Debug (TAdd (TNum i32_max) (TAdd (TNum 1) (TNum (-1)))) = Ret (Some (Num i32_max)).
Proof.
  split; [|split; vm_compute; reflexivity].
  destruct (const_fold_release_ret ta) as [ca Ha].
  destruct (const_fold_release_ret tb) as [cb Hb].
  destruct (const_fold_release_ret tc) as [cc Hc].
  erewrite (const_fold_add_release (TAdd ta tb)) by (eauto using const_fold_add_release).
  erewrite (const_fold_add_release ta (TAdd tb tc)) by (eauto using const_fold_add_release).
  f_equal.
  destruct (ca ≫= num) as [na|]; simpl; [|reflexivity].
  destruct (cb ≫= num) as [nb|]; simpl;
    [|destruct (cc ≫= num); reflexivity].
  destruct (cc ≫= num) as [nc|]; simpl; [|reflexivity].
  rewrite wrap_i32_assoc. reflexivity.
Qed.

Lemma filter_size_eq (X Y : gset Id) :
  size (filter (fun i => i ∈ Y) X) = size X -> filter (fun i => i ∈ Y) X = X.
Proof.
  intros Hs. rewrite retain_is_intersection in *.
  destruct (decide (X ∩ Y = X)) as [E|Hne]; [exact E|].
  exfalso.
  assert (Hsub : X ∩ Y ⊂ X).
  { split; [set_solver|]. intros Hc. apply Hne. set_solver. }
  pose proof (subset_size _ _ Hsub). lia.
Qed.

(** [merge] reports [None] exactly when it changed [to], and merging a
    class's data with itself reports [Some(Greater)] and changes nothing. *)
Theorem merge_report_exact (to from : Data) :
  (snd (merge to from) = None <-> fst (merge to from) <> to) /\
  merge to to = (to, Some Greater).
Proof.
  assert (Hex : snd (merge to from) = None <-> fst (merge to from) <> to).
  { unfold merge.
    destruct (is_none_b (constant to) && negb (is_none_b (constant from))) eqn:Ec.
    - simpl. split; [|reflexivity]. intros _ Heq.
      apply andb_true_iff in Ec as [E1 E2].
      destruct to as [ft [ct|]]; [discriminate|].
      destruct (constant from); [|discriminate]. simpl in Heq. injection Heq. discriminate.
    - destruct (negb (Nat.eqb (size (free to))
                  (size (filter (fun i => i ∈ free from) (free to))))) eqn:Ed; simpl.
      + split; [|reflexivity]. intros _ Heq.
        apply negb_true_iff, Nat.eqb_neq in Ed. apply Ed.
        rewrite <- Heq at 1. reflexivity.
      + split; [discriminate|]. intros Hne. exfalso. apply Hne.
        apply negb_false_iff, Nat.eqb_eq in Ed.
        rewrite (filter_size_eq (free to) (free from)) by (symmetry; exact Ed).
        destruct to; reflexivity. }
  split; [exact Hex|].
  unfold merge.
  assert (Hf : filter (fun i => i ∈ free to) (free to) = free to).
  { rewrite retain_is_intersection. apply leibniz_equiv. set_solver. }
  rewrite Hf. destruct to as [ft [ct|]]; simpl; rewrite Nat.eqb_refl; reflexivity.
Qed.

(** After a sequence of merges into [to], an id is free exactly when it
    was free in [to] and in every merged class: the order of the merges
    does not matter for the free set. *)
Theorem merge_all_free (to : Data) (froms : list Data) (i : Id) :
  i ∈ free (merge_all to froms) <-> i ∈ free to /\ Forall (fun f => i ∈ free f) froms.
Proof.
  revert to. induction froms as [|f fs IH]; intros to; simpl.
  - rewrite Forall_nil. tauto.
  - unfold merge_all in *. simpl. rewrite IH, merge_free, Forall_cons.
    rewrite elem_of_intersection. tauto.
Qed.

Lemma ematch_binds (g : EGraph) (p : Pattern) :
  forall cls s s', s' ∈ ematch g p cls s ->
  (forall v, is_Some (s !! v) -> is_Some (s' !! v)) /\
  (forall v, v ∈ pvars p -> is_Some (s' !! v)).
Proof.
  induction p as [v|b|z|q IHq|q IHq r IHr|q IHq r IHr|q IHq r IHr|q IHq r IHr
                 |q IHq r IHr t IHt|q IHq r IHr|q IHq r IHr t IHt|x];
    intros cls s s' Hs; simpl in Hs |- *; unfold Subst in *.
  1: { destruct (s !! v) as [i|] eqn:E.
    + case_decide; [|set_solver]. apply list_elem_of_singleton in Hs as ->.
      split; [tauto|]. intros w Hw. apply list_elem_of_singleton in Hw as ->. rewrite E. eauto.
    + apply list_elem_of_singleton in Hs as ->. split.
      * intros w [j Hj]. destruct (decide (w = v)) as [->|Hne]; [congruence|].
        rewrite lookup_insert_ne by congruence. eauto.
      * intros w Hw. apply list_elem_of_singleton in Hw as ->.
        rewrite lookup_insert_eq. eauto. }
  all: try (destruct (decide _); [|set_solver];
            apply list_elem_of_singleton in Hs as ->; set_solver).

  all: apply list_elem_of_bind in Hs as (n & Hs & _); destruct n; try set_solver;
    repeat match goal with
    | H : _ ∈ _ ≫= _ |- _ => apply list_elem_of_bind in H as (? & H & ?)
    end;
    repeat match goal with
    | IH : forall cls s s', s' ∈ ematch ?g ?q cls s -> _, H : _ ∈ ematch ?g ?q _ _ |- _ =>
        let A := fresh "A" in let B := fresh "B" in
        destruct (IH _ _ _ H) as [A B]; clear H
    end;
    (split; [intros; eauto 6|intros w Hw; rewrite ?elem_of_app in Hw; intuition eauto]).
Qed.

Lemma rules_reads_in_lhs : Forall (fun r => rule_reads r ⊆ pvars (rw_lhs r)) rules.
Proof. apply (bool_decide_unpack _). vm_compute. reflexivity. Qed.

(** Every variable a rule of [rules()] reads after a match (in its
    condition and its right-hand side; [CaptureAvoid] binds [?fresh]
    itself) is bound by every match of its left-hand side, so no
    [subst[v]] of the rule set looks up an unbound variable. *)
Theorem rules_read_bound_vars :
  Forall (fun r => forall g cls s, s ∈ ematch g (rw_lhs r) cls ∅ ->
                   forall v, v ∈ rule_reads r -> is_Some (s !! v)) rules.
Proof.
  eapply Forall_impl; [exact rules_reads_in_lhs|]. simpl.
  intros r Hr g cls s Hs v Hv.
  exact (proj2 (ematch_binds g (rw_lhs r) cls ∅ s Hs) v (Hr v Hv)).
Qed.

Lemma subst_get_insert_eq (s : Subst) (k : string) (i : Id) : subst_get (<[k := i]> s) k = i.
Proof. unfold subst_get, Subst in *. rewrite lookup_insert_eq. reflexivity. Qed.
Lemma subst_get_insert_ne (s : Subst) (k k' : string) (i : Id) :
  k <> k' -> subst_get (<[k := i]> s) k' = subst_get s k'.
Proof. intros H. unfold subst_get, Subst in *. rewrite lookup_insert_ne by exact H. reflexivity. Qed.

Lemma egraph_bounded_memo (g : EGraph) (n : Lambda) :
  egraph_bounded g -> Exists (fun c => next_id g <= c) (children n) ->
  memo_lookup (memo g) n = None.
Proof.
  intros [Hm _] Hc. induction (memo g) as [|[n' i] m IH]; simpl; [reflexivity|].
  apply Forall_cons in Hm as [Hn Hm].
  case_decide as E; [|exact (IH Hm)].
  subst n'. simpl in Hn. exfalso.
  apply Exists_exists in Hc as (c & Hc & Hle).
  rewrite Forall_forall in Hn. specialize (Hn c Hc). lia.
Qed.

Lemma egraph_bounded_free (g : EGraph) (x : Id) :
  egraph_bounded g -> next_id g ∉ free_of g x.
Proof.
  intros [_ Hc] Hin. unfold free_of, data in Hin.
  destruct (classes g !! find g x) as [d|] eqn:E; simpl in Hin; [|set_solver].
  specialize (Hc _ _ E). simpl in Hc. specialize (Hc _ Hin). cbv beta in Hc. lia.
Qed.

Lemma insert_new_next (g : EGraph) (n : Lambda) :
  next_id (insert_new g n).1 = next_id g + 1.
Proof. reflexivity. Qed.

Lemma insert_new_free_old (g : EGraph) (n : Lambda) (x : Id) :
  egraph_inv g -> x < next_id g -> free_of (insert_new g n).1 x = free_of g x.
Proof.
  intros Hg Hx. unfold free_of, data. rewrite (insert_new_find g Hg).
  pose proof (find_lt g Hg x Hx).
  unfold insert_new. simpl. rewrite lookup_insert_ne by lia. reflexivity.
Qed.

Lemma insert_new_free_new (g : EGraph) (n : Lambda) :
  free_of (insert_new g n).1 (next_id g) = free (make g n).
Proof.
  unfold free_of, data, find, insert_new. simpl.
  rewrite lookup_insert_eq. simpl. rewrite lookup_insert_eq. reflexivity.
Qed.

Lemma insert_new_find_new (g : EGraph) (n : Lambda) :
  find (insert_new g n).1 (next_id g) = next_id g.
Proof. unfold find, insert_new. simpl. rewrite lookup_insert_eq. reflexivity. Qed.

Lemma free_of_find (g : EGraph) (x : Id) :
  egraph_inv g -> x < next_id g -> free_of g (find g x) = free_of g x.
Proof. intros Hg Hx. unfold free_of, data. rewrite (find_idem g Hg x Hx). reflexivity. Qed.

Lemma add_new_step (g : EGraph) (n n' : Lambda) :
  map_children (find g) n = n' -> eval g n' = None ->
  memo_lookup (memo g) n' = None ->
  add g n = ((insert_new g n').1, next_id g).
Proof.
  intros <- He Hm. rewrite (add_no_constant g n He). unfold add_raw. rewrite Hm.
  reflexivity.
Qed.

(** An [add] of a node without a constant that the table does not know. *)
Lemma add_new (g : EGraph) (n : Lambda) :
  eval g (map_children (find g) n) = None ->
  memo_lookup (memo g) (map_children (find g) n) = None ->
  add g n = insert_new g (map_children (find g) n).
Proof.
  intros He Hm. rewrite (add_no_constant g n He). unfold add_raw. rewrite Hm. reflexivity.
Qed.

(** "let-lam-diff" when [?v2] is free in [?e] and the fresh symbol is not
    yet in the graph: it builds [(lam _c (let v1 e (let v2 (var _c) body)))]
    from new nodes, and the class it returns has the free set [make] gives
    the matched [(let v1 e (lam v2 body))]:
    [((free body \ {v2}) \ {v1}) ∪ free e]. *)
Theorem let_lam_diff_keeps_free (g : EGraph) (cls : Id) (s : Subst) (v1 e v2 body : Id)
    (Hg : egraph_inv g) (Hb : egraph_bounded g)
    (Hs1 : s !! "?v1" = Some v1) (Hse : s !! "?e" = Some e)
    (Hs2 : s !! "?v2" = Some v2) (Hsb : s !! "?body" = Some body)
    (Hlt1 : v1 < next_id g) (Hlte : e < next_id g)
    (Hlt2 : v2 < next_id g) (Hltb : body < next_id g)
    (Hc1 : find g v1 = v1) (Hc2 : find g v2 = v2)
    (Hdiff : v1 <> v2) (Hfree : v2 ∈ free_of g e)
    (Hnew : memo_lookup (memo g) (Symbol (fresh_name cls)) = None) :
  exists g' r, let_lam_diff g cls s = (g', [r]) /\
    free_of g' r = ((free_of g body ∖ {[v2]}) ∖ {[v1]}) ∪ free_of g e.
Proof.
  set (N := next_id g).
  assert (Hget : forall k i, s !! k = Some i -> subst_get s k = i)
    by (intros k i Hk; unfold subst_get; rewrite Hk; reflexivity).
  unfold let_lam_diff, conditional_applier, is_not_same_var.
  rewrite (Hget _ _ Hs1), (Hget _ _ Hs2), Hc1, Hc2.
  rewrite bool_decide_true by exact Hdiff.
  unfold capture_avoid_apply_one. simpl ca_e; simpl ca_v2.
  rewrite (Hget _ _ Hse), (Hget _ _ Hs2).
  rewrite bool_decide_true by exact Hfree.
  (* the fresh symbol *)
  rewrite (add_new g (Symbol (fresh_name cls))) by first [reflexivity|exact Hnew].
  set (g1 := (insert_new g (Symbol (fresh_name cls))).1).
  change (map_children (find g) (Symbol (fresh_name cls))) with (Symbol (fresh_name cls)).
  replace (insert_new g (Symbol (fresh_name cls))) with (g1, N) by reflexivity.
  unfold pattern_applier. simpl ca_fresh. simpl if_free.
  simpl apply_pat.
  rewrite (subst_get_insert_eq s "?fresh" N).
  rewrite !(subst_get_insert_ne s "?fresh") by discriminate.
  rewrite (Hget _ _ Hs1), (Hget _ _ Hse), (Hget _ _ Hs2), (Hget _ _ Hsb).
  (* the intermediate graphs *)
  pose proof (insert_new_inv g Hg (Symbol (fresh_name cls))) as Hg1. fold g1 in Hg1.
  assert (Hn1 : next_id g1 = N + 1) by reflexivity.
  assert (Hf1 : forall x, find g1 x = find g x) by (intros x; apply (insert_new_find g Hg)).
  set (g2 := (insert_new g1 (Var N)).1).
  pose proof (insert_new_inv g1 Hg1 (Var N)) as Hg2. fold g2 in Hg2.
  assert (Hn2 : next_id g2 = N + 2) by (unfold g2; rewrite insert_new_next, Hn1; lia).
  assert (Hf2 : forall x, find g2 x = find g1 x) by (intros x; apply (insert_new_find g1 Hg1)).
  set (body' := find g body). set (e' := find g e).
  assert (Hbody' : body' < N) by (apply (find_lt g Hg); exact Hltb).
  assert (He' : e' < N) by (apply (find_lt g Hg); exact Hlte).
  set (g3 := (insert_new g2 (Let v2 (N + 1) body')).1).
  pose proof (insert_new_inv g2 Hg2 (Let v2 (N + 1) body')) as Hg3. fold g3 in Hg3.
  assert (Hn3 : next_id g3 = N + 3) by (unfold g3; rewrite insert_new_next, Hn2; lia).
  assert (Hf3 : forall x, find g3 x = find g2 x) by (intros x; apply (insert_new_find g2 Hg2)).
  set (g4 := (insert_new g3 (Let v1 e' (N + 2))).1).
  pose proof (insert_new_inv g3 Hg3 (Let v1 e' (N + 2))) as Hg4. fold g4 in Hg4.
  assert (Hn4 : next_id g4 = N + 4) by (unfold g4; rewrite insert_new_next, Hn3; lia).
  assert (Hf4 : forall x, find g4 x = find g3 x) by (intros x; apply (insert_new_find g3 Hg3)).
  set (g5 := (insert_new g4 (Lam N (N + 3))).1).
  assert (HfN : find g1 N = N) by apply insert_new_find_new.
  assert (HfN1 : find g2 (N + 1) = N + 1)
    by (rewrite <- Hn1; apply insert_new_find_new).
  assert (HfN2 : find g3 (N + 2) = N + 2)
    by (rewrite <- Hn2; apply insert_new_find_new).
  assert (HfN3 : find g4 (N + 3) = N + 3)
    by (rewrite <- Hn3; apply insert_new_find_new).
  (* the four [add]s *)
  assert (HA : add g1 (Var N) = (g2, N + 1)).
  { rewrite (add_new_step g1 (Var N) (Var N)).
    - rewrite Hn1. reflexivity.
    - simpl. rewrite HfN. reflexivity.
    - reflexivity.
    - unfold g1. simpl. try rewrite !decide_False by discriminate.
      apply egraph_bounded_memo; [exact Hb|]. simpl. constructor. lia. }
  assert (HB : add g2 (Let v2 (N + 1) body) = (g3, N + 2)).
  { rewrite (add_new_step g2 _ (Let v2 (N + 1) body')).
    - rewrite Hn2. reflexivity.
    - simpl. rewrite HfN1, !Hf2, !Hf1, Hc2. reflexivity.
    - reflexivity.
    - unfold g2, g1. simpl. try rewrite !decide_False by discriminate.
      apply egraph_bounded_memo; [exact Hb|]. simpl. constructor 2. constructor. lia. }
  assert (HC : add g3 (Let v1 e (N + 2)) = (g4, N + 3)).
  { rewrite (add_new_step g3 _ (Let v1 e' (N + 2))).
    - rewrite Hn3. reflexivity.
    - simpl. rewrite HfN2, !Hf3, !Hf2, !Hf1, Hc1. reflexivity.
    - reflexivity.
    - unfold g3, g2, g1. simpl.
      repeat (rewrite decide_False by
                (first [discriminate | intros Heq; injection Heq; intros; lia])).
      apply egraph_bounded_memo; [exact Hb|]. simpl. constructor 2. constructor 2.
      constructor. lia. }
  assert (HD : add g4 (Lam N (N + 3)) = (g5, N + 4)).
  { rewrite (add_new_step g4 _ (Lam N (N + 3))).
    - rewrite Hn4. reflexivity.
    - simpl. rewrite HfN3, Hf4, Hf3, Hf2, HfN. reflexivity.
    - reflexivity.
    - unfold g4, g3, g2, g1. simpl. try rewrite !decide_False by discriminate.
      apply egraph_bounded_memo; [exact Hb|]. simpl. constructor. lia. }
  rewrite HA. cbv iota beta. rewrite HB. cbv iota beta. rewrite HC. cbv iota beta.
  rewrite HD. cbv iota beta.
  exists g5, (N + 4). split; [reflexivity|].
  (* the free sets *)
  assert (Fold : forall h n x, egraph_inv h -> x < next_id h ->
            free_of (insert_new h n).1 x = free_of h x)
    by (intros; apply insert_new_free_old; assumption).
  assert (F5 : free_of g5 (N + 4) = (∅ ∪ free_of g4 (N + 3)) ∖ {[N]}).
  { rewrite <- Hn4. unfold g5. rewrite insert_new_free_new. reflexivity. }
  assert (F4 : free_of g4 (N + 3) = ((∅ ∪ free_of g3 (N + 2)) ∖ {[v1]}) ∪ free_of g3 e').
  { rewrite <- Hn3. unfold g4. rewrite insert_new_free_new. reflexivity. }
  assert (F3 : free_of g3 (N + 2) = ((∅ ∪ free_of g2 body') ∖ {[v2]}) ∪ free_of g2 (N + 1)).
  { rewrite <- Hn2. unfold g3. rewrite insert_new_free_new. reflexivity. }
  assert (F2 : free_of g2 (N + 1) = {[N]}).
  { rewrite <- Hn1. unfold g2. rewrite insert_new_free_new. reflexivity. }
  assert (Fb : free_of g2 body' = free_of g body).
  { unfold g2. rewrite Fold by (first [exact Hg1 | lia]).
    unfold g1. rewrite Fold by (first [exact Hg | lia]).
    apply free_of_find; assumption. }
  assert (Fe : free_of g3 e' = free_of g e).
  { unfold g3. rewrite Fold by (first [exact Hg2 | lia]).
    unfold g2. rewrite Fold by (first [exact Hg1 | lia]).
    unfold g1. rewrite Fold by (first [exact Hg | lia]).
    apply free_of_find; assumption. }
  rewrite F5, F4, F3, F2, Fb, Fe.
  pose proof (egraph_bounded_free g body Hb) as Nb.
  pose proof (egraph_bounded_free g e Hb) as Ne.
  fold N in Nb, Ne.
  assert (N <> v1) by lia.
  apply leibniz_equiv. set_solver.
Qed.

Lemma let_lam_diff_keeps_free_witness :
  let s : Subst := <["?v1" := 0]> (<["?e" := 2]> (<["?v2" := 1]> (<["?body" := 3]> ∅))) in
  egraph_inv capture_graph /\ egraph_bounded capture_graph /\
  exists g' r, let_lam_diff capture_graph 5 s = (g', [r]) /\
    free_of g' r = ((free_of capture_graph 3 ∖ {[1]}) ∖ {[0]}) ∪ free_of capture_graph 2.
Proof.
  intros s.
  assert (Hg : egraph_inv capture_graph)
    by (apply egraph_inv_check_sound; vm_compute; reflexivity).
  assert (Hb : egraph_bounded capture_graph)
    by (apply (bool_decide_unpack _); vm_compute; reflexivity).
  split; [exact Hg|]. split; [exact Hb|].
  apply (let_lam_diff_keeps_free capture_graph 5 s 0 2 1 3 Hg Hb);
    first [reflexivity | vm_compute; lia | vm_compute; reflexivity | discriminate].
Defined.

(** "let-lam-diff" when [?v2] is not free in [?e] and the inner let is not
    yet in the graph: it builds [(lam v2 (let v1 e body))], and the class
    it returns has the same free set as the matched let:
    [((free body \ {v2}) \ {v1}) ∪ free e]. *)
Theorem let_lam_diff_not_free_keeps_free (g : EGraph) (cls : Id) (s : Subst)
    (v1 e v2 body : Id)
    (Hg : egraph_inv g) (Hb : egraph_bounded g)
    (Hs1 : s !! "?v1" = Some v1) (Hse : s !! "?e" = Some e)
    (Hs2 : s !! "?v2" = Some v2) (Hsb : s !! "?body" = Some body)
    (Hlt1 : v1 < next_id g) (Hlte : e < next_id g)
    (Hlt2 : v2 < next_id g) (Hltb : body < next_id g)
    (Hc1 : find g v1 = v1) (Hc2 : find g v2 = v2)
    (Hdiff : v1 <> v2) (Hnf : v2 ∉ free_of g e)
    (Hnew : memo_lookup (memo g) (Let v1 (find g e) (find g body)) = None) :
  exists g' r, let_lam_diff g cls s = (g', [r]) /\
    free_of g' r = ((free_of g body ∖ {[v2]}) ∖ {[v1]}) ∪ free_of g e.
Proof.
  set (N := next_id g).
  assert (Hget : forall k i, s !! k = Some i -> subst_get s k = i)
    by (intros k i Hk; unfold subst_get; rewrite Hk; reflexivity).
  unfold let_lam_diff, conditional_applier, is_not_same_var.
  rewrite (Hget _ _ Hs1), (Hget _ _ Hs2), Hc1, Hc2.
  rewrite bool_decide_true by exact Hdiff.
  unfold capture_avoid_apply_one. simpl ca_e; simpl ca_v2.
  rewrite (Hget _ _ Hse), (Hget _ _ Hs2).
  rewrite bool_decide_false by exact Hnf.
  unfold pattern_applier. simpl if_not_free. simpl apply_pat.
  rewrite (Hget _ _ Hs1), (Hget _ _ Hse), (Hget _ _ Hs2), (Hget _ _ Hsb).
  set (e' := find g e). set (body' := find g body).
  assert (He' : e' < N) by (apply (find_lt g Hg); exact Hlte).
  assert (Hbody' : body' < N) by (apply (find_lt g Hg); exact Hltb).
  set (g1 := (insert_new g (Let v1 e' body')).1).
  pose proof (insert_new_inv g Hg (Let v1 e' body')) as Hg1. fold g1 in Hg1.
  assert (Hn1 : next_id g1 = N + 1) by reflexivity.
  assert (Hf1 : forall x, find g1 x = find g x) by (intros x; apply (insert_new_find g Hg)).
  assert (HfN : find g1 N = N) by apply insert_new_find_new.
  set (g2 := (insert_new g1 (Lam v2 N)).1).
  assert (HA : add g (Let v1 e body) = (g1, N)).
  { rewrite (add_new_step g _ (Let v1 e' body')).
    - reflexivity.
    - simpl. rewrite Hc1. reflexivity.
    - reflexivity.
    - exact Hnew. }
  assert (HB : add g1 (Lam v2 N) = (g2, N + 1)).
  { rewrite (add_new_step g1 _ (Lam v2 N)).
    - rewrite Hn1. reflexivity.
    - simpl. rewrite HfN, Hf1, Hc2. reflexivity.
    - reflexivity.
    - unfold g1. simpl. try rewrite !decide_False by discriminate.
      apply egraph_bounded_memo; [exact Hb|]. simpl. constructor 2. constructor. lia. }
  rewrite HA. cbv iota beta. rewrite HB. cbv iota beta.
  exists g2, (N + 1). split; [reflexivity|].
  assert (F2 : free_of g2 (N + 1) = (∅ ∪ free_of g1 N) ∖ {[v2]}).
  { rewrite <- Hn1. unfold g2. rewrite insert_new_free_new. reflexivity. }
  assert (F1 : free_of g1 N = ((∅ ∪ free_of g body') ∖ {[v1]}) ∪ free_of g e').
  { unfold g1, N. rewrite insert_new_free_new. reflexivity. }
  rewrite F2, F1. unfold body', e'. rewrite !free_of_find by assumption.
  apply leibniz_equiv. set_solver.
Qed.

Lemma let_lam_diff_not_free_keeps_free_witness :
  let s : Subst := <["?v1" := 0]> (<["?e" := 2]> (<["?v2" := 1]> (<["?body" := 3]> ∅))) in
  egraph_inv closed_let_graph /\ egraph_bounded closed_let_graph /\
  exists g' r, let_lam_diff closed_let_graph 5 s = (g', [r]) /\
    free_of g' r =
      ((free_of closed_let_graph 3 ∖ {[1]}) ∖ {[0]}) ∪ free_of closed_let_graph 2.
Proof.
  intros s.
  assert (Hg : egraph_inv closed_let_graph)
    by (apply egraph_inv_check_sound; vm_compute; reflexivity).
  assert (Hb : egraph_bounded closed_let_graph)
    by (apply (bool_decide_unpack _); vm_compute; reflexivity).
  split; [exact Hg|]. split; [exact Hb|].
  apply (let_lam_diff_not_free_keeps_free closed_let_graph 5 s 0 2 1 3 Hg Hb);
    first [reflexivity | vm_compute; lia | discriminate | vm_compute; set_solver].
Defined.

Lemma grows_refl (g : EGraph) : egraph_inv g -> egraph_grows g g.
Proof. intros Hg. split; [exact Hg|]. split; [lia|tauto]. Qed.

Lemma grows_trans (g1 g2 g3 : EGraph) :
  egraph_grows g1 g2 -> egraph_grows g2 g3 -> egraph_grows g1 g3.
Proof.
  intros (_ & Hn1 & Hf1) (Hg3 & Hn2 & Hf2). split; [exact Hg3|]. split; [lia|].
  intros x y Hxy. apply Hf2, Hf1, Hxy.
Qed.

Lemma add_ok (g : EGraph) (n : Lambda) :
  egraph_inv g -> egraph_grows g (add g n).1 /\ (add g n).2 < next_id (add g n).1.
Proof.
  intros Hg. unfold add.
  destruct (memo_lookup (memo g) (map_children (find g) n)) as [i|] eqn:E.
  - simpl. split; [apply grows_refl, Hg|].
    apply (find_lt g Hg), (memo_lookup_lt g Hg _ _ E).
  - pose proof (insert_new_inv g Hg (map_children (find g) n)) as Hg1.
    pose proof (insert_new_find g Hg (map_children (find g) n)) as Hf1.
    destruct (insert_new g (map_children (find g) n)) as [g1 id] eqn:Ei.
    assert (Hid : id = next_id g) by (unfold insert_new in Ei; congruence).
    assert (Hn1 : next_id g1 = next_id g + 1) by (unfold insert_new in Ei; injection Ei as <-; reflexivity).
    simpl in Hg1, Hf1.
    destruct (modify_with_ok union (union_f_ok union_fuel) g1 id Hg1 ltac:(lia))
      as (Hg2 & Hn2 & Hf2).
    simpl. split; [|unfold modify; lia].
    split; [exact Hg2|]. split; [unfold modify; lia|].
    intros x y Hxy. apply Hf2. rewrite !Hf1. exact Hxy.
Qed.

Ltac grow_step IH E :=
  match type of E with
  | apply_pat ?g ?s ?q = (?g1, ?i1) =>
      let H := fresh "Hs" in let Gr := fresh "Gr" in let Lt := fresh "Lt" in
      destruct (IH g) as [Gr Lt];
      [assumption
      |intros v Hv; match goal with Hvars : forall v, v ∈ _ -> _ |- _ =>
         apply Hvars; rewrite ?elem_of_app; tauto end
      |];
      rewrite E in Gr, Lt; simpl in Gr, Lt
  end.

Lemma apply_pat_ok (p : Pattern) :
  forall g s, egraph_inv g -> (forall v, v ∈ pvars p -> subst_get s v < next_id g) ->
  egraph_grows g (apply_pat g s p).1 /\ (apply_pat g s p).2 < next_id (apply_pat g s p).1.
Proof.
  induction p as [v|b|z|q IHq|q IHq r IHr|q IHq r IHr|q IHq r IHr|q IHq r IHr
                 |q IHq r IHr t IHt|q IHq r IHr|q IHq r IHr t IHt|x];
    intros g s Hg Hvars; simpl.
  1: { split; [apply grows_refl, Hg|]. apply Hvars. simpl. left. }
  all: try (apply add_ok, Hg).
  1: { destruct (apply_pat g s q) as [g1 i1] eqn:E1.
       destruct (IHq g s Hg Hvars) as [Gr1 Lt1]. rewrite E1 in Gr1, Lt1. simpl in *.
       destruct (add_ok g1 (Var i1) (proj1 Gr1)) as [Gr2 Lt2].
       split; [exact (grows_trans _ _ _ Gr1 Gr2)|exact Lt2]. }
  all: destruct (apply_pat g s q) as [g1 i1] eqn:E1;
    destruct (IHq g s Hg) as [Gr1 Lt1];
    [intros v Hv; apply Hvars; simpl; rewrite ?elem_of_app; tauto|];
    rewrite E1 in Gr1, Lt1; simpl in Gr1, Lt1;
    destruct (apply_pat g1 s r) as [g2 i2] eqn:E2;
    destruct (IHr g1 s (proj1 Gr1)) as [Gr2 Lt2];
    [intros v Hv; destruct Gr1 as (_ & Hn1 & _);
     assert (subst_get s v < next_id g) by (apply Hvars; simpl; rewrite ?elem_of_app; tauto);
     lia|];
    rewrite E2 in Gr2, Lt2; simpl in Gr2, Lt2;
    pose proof (grows_trans _ _ _ Gr1 Gr2) as Gr12; cbv beta iota.
  all: try (match goal with |- egraph_grows _ (add ?G ?N).1 /\ _ =>
              destruct (add_ok G N (proj1 Gr2)) as [Gr3 Lt3];
              split; [exact (grows_trans _ _ _ Gr12 Gr3)|exact Lt3] end).
  all: destruct (apply_pat g2 s t) as [g3 i3] eqn:E3;
    destruct (IHt g2 s (proj1 Gr2)) as [Gr3 Lt3];
    [intros v Hv; destruct Gr12 as (_ & Hn12 & _);
     assert (subst_get s v < next_id g) by (apply Hvars; simpl; rewrite ?elem_of_app; tauto);
     lia|];
    rewrite E3 in Gr3, Lt3; simpl in Gr3, Lt3;
    pose proof (grows_trans _ _ _ Gr12 Gr3) as Gr123; cbv beta iota;
    match goal with |- egraph_grows _ (add ?G ?N).1 /\ _ =>
      destruct (add_ok G N (proj1 Gr3)) as [Gr4 Lt4];
      split; [exact (grows_trans _ _ _ Gr123 Gr4)|exact Lt4] end.
Qed.

Lemma rhs_applier_ok (rhs : Rhs) (g : EGraph) (cls : Id) (s : Subst) :
  egraph_inv g -> (forall v, v ∈ rhs_vars rhs -> subst_get s v < next_id g) ->
  egraph_grows g (rhs_applier rhs g cls s).1 /\
  Forall (fun i => i < next_id (rhs_applier rhs g cls s).1) (rhs_applier rhs g cls s).2.
Proof.
  intros Hg Hvars. destruct rhs as [p|ca]; simpl in *.
  - unfold pattern_applier.
    destruct (apply_pat_ok p g s Hg Hvars) as [Gr Lt].
    destruct (apply_pat g s p) as [g1 i]. simpl in *. split; [exact Gr|].
    constructor; [exact Lt|constructor].
  - unfold capture_avoid_apply_one.
    destruct (bool_decide _).
    + destruct (add_ok g (Symbol (fresh_name cls)) Hg) as [Gr1 Lt1].
      destruct (add g (Symbol (fresh_name cls))) as [g1 sym]. simpl in Gr1, Lt1.
      unfold pattern_applier.
      destruct (apply_pat_ok (if_free ca) g1 (<[ca_fresh ca := sym]> s) (proj1 Gr1))
        as [Gr2 Lt2].
      { intros v Hv. destruct (decide (v = ca_fresh ca)) as [->|Hne].
        - rewrite subst_get_insert_eq. exact Lt1.
        - rewrite subst_get_insert_ne by congruence.
          destruct Gr1 as (_ & Hn1 & _).
          assert (subst_get s v < next_id g); [|lia].
          apply Hvars. rewrite ?elem_of_cons, ?elem_of_app, list_elem_of_filter. tauto. }
      destruct (apply_pat g1 _ (if_free ca)) as [g2 i]. simpl in *.
      split; [exact (grows_trans _ _ _ Gr1 Gr2)|].
      constructor; [exact Lt2|constructor].
    + unfold pattern_applier.
      destruct (apply_pat_ok (if_not_free ca) g s Hg) as [Gr Lt].
      { intros v Hv. apply Hvars. rewrite ?elem_of_cons, ?elem_of_app. tauto. }
      destruct (apply_pat g s (if_not_free ca)) as [g1 i]. simpl in *. split; [exact Gr|].
      constructor; [exact Lt|constructor].
Qed.

Lemma cond_check_ok (c : Cond) (g : EGraph) (cls : Id) (s : Subst) :
  egraph_inv g -> (forall v, v ∈ cond_vars c -> subst_get s v < next_id g) ->
  egraph_grows g (cond_check c g cls s).1.
Proof.
  intros Hg Hvars. destruct c as [|p1 p2|v1 v2|v]; simpl in *; try (apply grows_refl, Hg).
  unfold condition_equal.
  destruct (apply_pat_ok p1 g s Hg) as [Gr1 _].
  { intros v Hv. apply Hvars. rewrite elem_of_app. tauto. }
  destruct (apply_pat g s p1) as [g1 a1]. simpl in Gr1.
  destruct (apply_pat_ok p2 g1 s (proj1 Gr1)) as [Gr2 _].
  { intros v Hv. destruct Gr1 as (_ & Hn1 & _).
    assert (subst_get s v < next_id g); [|lia].
    apply Hvars. rewrite elem_of_app. tauto. }
  destruct (apply_pat g1 s p2) as [g2 a2]. simpl in *.
  exact (grows_trans _ _ _ Gr1 Gr2).
Qed.

Lemma rw_applier_ok (r : Rewrite) (g : EGraph) (cls : Id) (s : Subst) :
  egraph_inv g -> (forall v, v ∈ rule_reads r -> subst_get s v < next_id g) ->
  egraph_grows g (rw_applier r g cls s).1 /\
  Forall (fun i => i < next_id (rw_applier r g cls s).1) (rw_applier r g cls s).2.
Proof.
  intros Hg Hvars. unfold rule_reads in Hvars.
  assert (Hr : forall g', egraph_grows g g' ->
            egraph_grows g (rhs_applier (rw_rhs r) g' cls s).1 /\
            Forall (fun i => i < next_id (rhs_applier (rw_rhs r) g' cls s).1)
                   (rhs_applier (rw_rhs r) g' cls s).2).
  { intros g' Gr'. destruct (rhs_applier_ok (rw_rhs r) g' cls s (proj1 Gr')) as [Gr Lt].
    - intros v Hv. destruct Gr' as (_ & Hn & _).
      assert (subst_get s v < next_id g); [|lia].
      apply Hvars. rewrite elem_of_app. tauto.
    - split; [exact (grows_trans _ _ _ Gr' Gr)|exact Lt]. }
  pose proof (cond_check_ok (rw_cond r) g cls s Hg
                (ltac:(intros v Hv; apply Hvars; rewrite elem_of_app; tauto))) as Gc.
  unfold rw_applier.
  destruct (rw_cond r) as [|p1 p2|v1 v2|v] eqn:Ec; [apply Hr, grows_refl, Hg| | |];
    (unfold conditional_applier;
     destruct (cond_check _ g cls s) as [g1 ok] eqn:Eck; simpl in Gc;
     destruct ok; [apply Hr, Gc|split; [exact Gc|constructor]]).
Qed.

Lemma unions_ok (ids : list Id) (g : EGraph) (cls : Id) :
  egraph_inv g -> cls < next_id g -> Forall (fun i => i < next_id g) ids ->
  egraph_grows g (foldl (fun g i => union g i cls) g ids).
Proof.
  revert g. unfold union. induction ids as [|i ids IH]; intros g Hg Hcls Hids; cbn [foldl].
  - apply grows_refl, Hg.
  - apply Forall_cons in Hids as [Hi Hids].
    destruct (union_f_ok union_fuel g i cls Hg Hi Hcls) as (Hg1 & Hn1 & Hf1).
    eapply grows_trans; [split; [exact Hg1|split; [exact Hn1|exact Hf1]]|].
    apply IH; [exact Hg1|lia|].
    eapply Forall_impl; [exact Hids|]. intros x Hx; cbv beta in *; lia.
Qed.

Lemma nodes_of_bounded (g : EGraph) (cls : Id) (n : Lambda) :
  egraph_bounded g -> n ∈ nodes_of g cls -> Forall (fun c => c < next_id g) (children n).
Proof.
  intros [Hm _] Hn. unfold nodes_of in Hn.
  apply list_elem_of_fmap in Hn as ([n' i] & -> & Hp).
  apply list_elem_of_filter in Hp as [_ Hp].
  rewrite Forall_forall in Hm. exact (Hm _ Hp).
Qed.

Lemma ematch_vals (g : EGraph) (Hg : egraph_inv g) (Hb : egraph_bounded g) (p : Pattern) :
  forall cls s s', cls < next_id g ->
  (forall v i, s !! v = Some i -> i < next_id g) ->
  s' ∈ ematch g p cls s -> forall v i, s' !! v = Some i -> i < next_id g.
Proof.
  induction p as [v|b|z|q IHq|q IHq r IHr|q IHq r IHr|q IHq r IHr|q IHq r IHr
                 |q IHq r IHr t IHt|q IHq r IHr|q IHq r IHr t IHt|x];
    intros cls s s' Hcls Hs Hs'; simpl in Hs'.
  1: { unfold Subst in *. destruct (s !! v) as [i|] eqn:E.
       - destruct (decide _); [|set_solver].
         apply list_elem_of_singleton in Hs' as ->. exact Hs.
       - apply list_elem_of_singleton in Hs' as ->.
         intros w j Hw. destruct (decide (w = v)) as [->|Hne].
         + rewrite lookup_insert_eq in Hw. injection Hw as <-. apply (find_lt g Hg), Hcls.
         + rewrite lookup_insert_ne in Hw by congruence. exact (Hs _ _ Hw). }
  all: try (destruct (decide _); [|set_solver];
            apply list_elem_of_singleton in Hs' as ->; exact Hs).
  all: apply list_elem_of_bind in Hs' as (n & Hs' & Hn);
    pose proof (nodes_of_bounded g cls n Hb Hn) as Hch;
    destruct n; try set_solver; simpl in Hch;
    repeat match goal with H : Forall _ (_ :: _) |- _ => apply Forall_cons in H as [? H] end;
    repeat match goal with
    | H : _ ∈ _ ≫= _ |- _ => apply list_elem_of_bind in H as (? & H & ?)
    end;
    repeat match goal with
    | IH : forall cls s s', _ -> _ -> s' ∈ ematch ?G ?Q cls s -> _,
      Hq : forall v i, ?s0 !! v = Some i -> _,
      H : ?s1 ∈ ematch ?G ?Q ?c ?s0 |- _ =>
        let Hv := fresh "Hv" in
        pose proof (IH c s0 s1 ltac:(eassumption) Hq H) as Hv; clear H
    end; assumption.
Qed.


Lemma match_reads_bounded (g : EGraph) (r : Rewrite) (cls : Id) (s : Subst) :
  egraph_inv g -> egraph_bounded g -> r ∈ rules -> cls < next_id g ->
  s ∈ ematch g (rw_lhs r) cls ∅ ->
  forall v, v ∈ rule_reads r -> subst_get s v < next_id g.
Proof.
  intros Hg Hb Hr Hcls Hs v Hv.
  assert (Hl : v ∈ pvars (rw_lhs r))
    by (pose proof rules_reads_in_lhs as Hin; rewrite Forall_forall in Hin; exact (Hin r Hr v Hv)).
  destruct (proj2 (ematch_binds g (rw_lhs r) cls ∅ s Hs) v Hl) as [i Hi].
  unfold subst_get. rewrite Hi. simpl.
  refine (ematch_vals g Hg Hb (rw_lhs r) cls ∅ s Hcls _ Hs v i Hi).
  intros w j Hw. unfold Subst in *. rewrite lookup_empty in Hw. discriminate.
Qed.

Lemma rewrite_fold_ok (r : Rewrite) (g : EGraph) (cls : Id) (ss : list Subst) :
  forall g0, egraph_inv g0 -> next_id g <= next_id g0 -> cls < next_id g ->
  (forall s, s ∈ ss -> forall v, v ∈ rule_reads r -> subst_get s v < next_id g) ->
  egraph_grows g0
    (foldl (fun g s => let '(g1, ids) := rw_applier r g cls s in
                       foldl (fun g i => union g i cls) g1 ids) g0 ss).
Proof.
  induction ss as [|s ss IH]; intros g0 Hg0 Hn0 Hcls Hss; cbn [foldl].
  - apply grows_refl, Hg0.
  - destruct (rw_applier_ok r g0 cls s Hg0) as [Gr1 Lt1].
    { intros v Hv. pose proof (Hss s ltac:(left) v Hv). lia. }
    destruct (rw_applier r g0 cls s) as [g1 ids]. simpl in Gr1, Lt1.
    pose proof Gr1 as (Hg1 & Hn1 & _).
    pose proof (unions_ok ids g1 cls Hg1 ltac:(lia) Lt1) as Gr2.
    pose proof Gr2 as (Hg2 & Hn2 & _).
    eapply grows_trans; [exact (grows_trans _ _ _ Gr1 Gr2)|].
    apply IH; [exact Hg2|lia|exact Hcls|].
    intros s' Hs'. apply Hss. right. exact Hs'.
Qed.

Lemma lit_b_children (c : Lambda) : lit_b (Some c) = true -> children c = [].
Proof. destruct c; simpl; congruence. Qed.

Lemma children_map (f : Id -> Id) (n : Lambda) :
  children (map_children f n) = map f (children n).
Proof. destruct n; reflexivity. Qed.

Lemma eval_lit (g : EGraph) (n : Lambda) : lit_b (eval g n) = true.
Proof.
  unfold eval. destruct n; simpl; try reflexivity.
  - destruct (constant_of g a ≫= num); [|reflexivity].
    destruct (constant_of g b ≫= num); reflexivity.
  - destruct (constant_of g a), (constant_of g b); reflexivity.
Qed.

Lemma data_bounded (g : EGraph) (x : Id) :
  egraph_bounded g -> set_Forall (fun i => i < next_id g) (free (data g x)).
Proof.
  intros [_ Hc]. unfold data.
  destruct (classes g !! find g x) as [d|] eqn:E; simpl; [exact (Hc _ _ E)|].
  intros i Hi. set_solver.
Qed.

Lemma data_lit (g : EGraph) (x : Id) :
  consts_lit g -> lit_b (constant (data g x)) = true.
Proof.
  intros Hl. unfold data.
  destruct (classes g !! find g x) as [d|] eqn:E; simpl; [exact (Hl _ _ E)|reflexivity].
Qed.

Lemma make_bounded (g : EGraph) (n : Lambda) (N : Id) :
  (forall x, set_Forall (fun i => i < N) (free_of g x)) ->
  Forall (fun c => c < N) (children n) ->
  set_Forall (fun i => i < N) (free (make g n)).
Proof.
  intros Hf Hc i Hi.
  assert (Hx : forall x, i ∈ free_of g x -> i < N) by (intros x Hx; exact (Hf x i Hx)).
  destruct n; simpl in Hc, Hi;
    repeat match goal with H : Forall _ (_ :: _) |- _ => apply Forall_cons in H as [? H] end;
    set_unfold; naive_solver.
Qed.

Lemma insert_new_wf (g : EGraph) (n : Lambda) :
  egraph_wf g -> Forall (fun c => c < next_id g) (children n) ->
  egraph_wf (insert_new g n).1.
Proof.
  intros [[Hm Hc] Hl] Hn. unfold insert_new. split; [split|]; simpl.
  - constructor.
    + simpl. eapply Forall_impl; [exact Hn|]. intros c Hc'; cbv beta in *; lia.
    + eapply Forall_impl; [exact Hm|]. intros p Hp.
      eapply Forall_impl; [exact Hp|]. intros c Hc'; cbv beta in *; lia.
  - apply map_Forall_insert_2.
    + intros i Hi.
      assert (i < next_id g); [|lia].
      refine (make_bounded g n (next_id g) _ Hn i Hi).
      intros x. exact (data_bounded g x (conj Hm Hc)).
    + intros k d Hk i Hi. pose proof (Hc k d Hk i Hi). cbv beta in *. lia.
  - apply map_Forall_insert_2; [apply eval_lit|exact Hl].
Qed.

Lemma add_raw_wf (g : EGraph) (n : Lambda) :
  egraph_inv g -> egraph_wf g -> Forall (fun c => c < next_id g) (children n) ->
  egraph_wf (add_raw g n).1.
Proof.
  intros Hg Hw Hn. unfold add_raw.
  destruct (memo_lookup _ _); [exact Hw|].
  apply insert_new_wf; [exact Hw|].
  rewrite children_map, Forall_map.
  eapply Forall_impl; [exact Hn|]. intros c Hc. exact (find_lt g Hg c Hc).
Qed.

Lemma union_raw_wf (g : EGraph) (a b : Id) :
  egraph_wf g -> egraph_wf (union_raw g a b).
Proof.
  intros [[Hm Hc] Hl]. unfold union_raw. split; [split|]; simpl.
  - exact Hm.
  - apply map_Forall_insert_2.
    + intros i Hi. unfold merge in Hi.
      assert (Hi' : i ∈ free (data g a)).
      { repeat case_match; simpl in Hi; apply elem_of_filter in Hi; tauto. }
      exact (data_bounded g a (conj Hm Hc) i Hi').
    + apply map_Forall_delete. exact Hc.
  - apply map_Forall_insert_2.
    + rewrite merge_constant.
      pose proof (data_lit g a Hl). pose proof (data_lit g b Hl).
      destruct (constant (data g a)); assumption.
    + apply map_Forall_delete. exact Hl.
Qed.

Lemma union_f_wf (k : nat) :
  forall g a b, egraph_inv g -> egraph_wf g -> a < next_id g -> b < next_id g ->
  egraph_wf (union_f k g a b).
Proof.
  induction k as [|k IH]; intros g a b Hg Hw Ha Hb; simpl; [exact Hw|].
  case_decide as Heq; [exact Hw|].
  pose proof (union_raw_inv g Hg a b Ha Hb Heq) as Hg1.
  pose proof (union_raw_wf g a b Hw) as Hw1.
  set (g1 := union_raw g a b) in *.
  assert (Hn1 : next_id g1 = next_id g) by reflexivity.
  pose proof (find_lt g Hg a Ha) as Hra.
  unfold modify_with.
  destruct (constant_of g1 (find g a)) as [c|] eqn:Ec; [|exact Hw1].
  assert (Hcc : children c = []).
  { apply lit_b_children. rewrite <- Ec. apply data_lit, Hw1. }
  pose proof (add_raw_ok g1 Hg1 c) as (Hg2 & Hn2 & Hc2 & _).
  pose proof (add_raw_wf g1 c Hg1 Hw1 ltac:(rewrite Hcc; constructor)) as Hw2.
  destruct (add_raw g1 c) as [g2 cid]. simpl in *.
  apply IH; [exact Hg2|exact Hw2|lia|exact Hc2].
Qed.

Lemma add_wf (g : EGraph) (n : Lambda) :
  egraph_inv g -> egraph_wf g -> Forall (fun c => c < next_id g) (children n) ->
  egraph_wf (add g n).1.
Proof.
  intros Hg Hw Hn. unfold add.
  destruct (memo_lookup (memo g) (map_children (find g) n)); [exact Hw|].
  assert (Hn' : Forall (fun c => c < next_id g) (children (map_children (find g) n))).
  { rewrite children_map, Forall_map.
    eapply Forall_impl; [exact Hn|]. intros c Hc. exact (find_lt g Hg c Hc). }
  pose proof (insert_new_inv g Hg (map_children (find g) n)) as Hg1.
  pose proof (insert_new_wf g _ Hw Hn') as Hw1.
  destruct (insert_new g (map_children (find g) n)) as [g1 id] eqn:Ei. simpl in *.
  assert (Hn1 : next_id g1 = next_id g + 1) by (unfold insert_new in Ei; injection Ei as <-; reflexivity).
  assert (Hid : id = next_id g) by (unfold insert_new in Ei; congruence).
  unfold modify, modify_with.
  destruct (constant_of g1 id) as [c|] eqn:Ec; [|exact Hw1].
  assert (Hcc : children c = []).
  { apply lit_b_children. rewrite <- Ec. apply data_lit, Hw1. }
  pose proof (add_raw_ok g1 Hg1 c) as (Hg2 & Hn2 & Hc2 & _).
  pose proof (add_raw_wf g1 c Hg1 Hw1 ltac:(rewrite Hcc; constructor)) as Hw2.
  destruct (add_raw g1 c) as [g2 cid]. simpl in *.
  apply union_f_wf; [exact Hg2|exact Hw2|lia|exact Hc2].
Qed.

Lemma apply_pat_wf (p : Pattern) :
  forall g s, egraph_inv g -> egraph_wf g ->
  (forall v, v ∈ pvars p -> subst_get s v < next_id g) ->
  egraph_wf (apply_pat g s p).1.
Proof.
  induction p as [v|b|z|q IHq|q IHq r IHr|q IHq r IHr|q IHq r IHr|q IHq r IHr
                 |q IHq r IHr t IHt|q IHq r IHr|q IHq r IHr t IHt|x];
    intros g s Hg Hw Hvars; simpl.
  1: exact Hw.
  all: try (apply add_wf; [exact Hg|exact Hw|constructor]).
  1: { pose proof (IHq g s Hg Hw Hvars) as Hw1.
       destruct (apply_pat_ok q g s Hg Hvars) as [Gr1 Lt1].
       destruct (apply_pat g s q) as [g1 i1]. simpl in *.
       apply add_wf; [exact (proj1 Gr1)|exact Hw1|repeat constructor; exact Lt1]. }
  all: assert (Hq : forall v, v ∈ pvars q -> subst_get s v < next_id g)
         by (intros v Hv; apply Hvars; simpl; rewrite ?elem_of_app; tauto);
    pose proof (IHq g s Hg Hw Hq) as Hw1;
    destruct (apply_pat_ok q g s Hg Hq) as [Gr1 Lt1];
    destruct (apply_pat g s q) as [g1 i1]; simpl in Hw1, Gr1, Lt1;
    pose proof Gr1 as (Hg1 & Hn1 & _);
    assert (Hr : forall v, v ∈ pvars r -> subst_get s v < next_id g1)
      by (intros v Hv; assert (subst_get s v < next_id g)
            by (apply Hvars; simpl; rewrite ?elem_of_app; tauto); lia);
    pose proof (IHr g1 s Hg1 Hw1 Hr) as Hw2;
    destruct (apply_pat_ok r g1 s Hg1 Hr) as [Gr2 Lt2];
    destruct (apply_pat g1 s r) as [g2 i2]; simpl in Hw2, Gr2, Lt2;
    pose proof Gr2 as (Hg2 & Hn2 & _); cbv beta iota.
  all: try (apply add_wf; [exact Hg2|exact Hw2|];
            repeat constructor; simpl; lia).
  all: assert (Ht : forall v, v ∈ pvars t -> subst_get s v < next_id g2)
         by (intros v Hv; assert (subst_get s v < next_id g)
               by (apply Hvars; simpl; rewrite ?elem_of_app; tauto); lia);
    pose proof (IHt g2 s Hg2 Hw2 Ht) as Hw3;
    destruct (apply_pat_ok t g2 s Hg2 Ht) as [Gr3 Lt3];
    destruct (apply_pat g2 s t) as [g3 i3]; simpl in Hw3, Gr3, Lt3;
    pose proof Gr3 as (Hg3 & Hn3 & _);
    apply add_wf; [exact Hg3|exact Hw3|]; repeat constructor; simpl; lia.
Qed.

Lemma rhs_applier_wf (rhs : Rhs) (g : EGraph) (cls : Id) (s : Subst) :
  egraph_inv g -> egraph_wf g ->
  (forall v, v ∈ rhs_vars rhs -> subst_get s v < next_id g) ->
  egraph_wf (rhs_applier rhs g cls s).1.
Proof.
  intros Hg Hw Hvars. destruct rhs as [p|ca]; simpl in *.
  - unfold pattern_applier.
    pose proof (apply_pat_wf p g s Hg Hw Hvars) as Hw1.
    destruct (apply_pat g s p). exact Hw1.
  - unfold capture_avoid_apply_one.
    destruct (bool_decide _).
    + pose proof (add_wf g (Symbol (fresh_name cls)) Hg Hw ltac:(constructor)) as Hw1.
      destruct (add_ok g (Symbol (fresh_name cls)) Hg) as [Gr1 Lt1].
      destruct (add g (Symbol (fresh_name cls))) as [g1 sym]. simpl in Hw1, Gr1, Lt1.
      unfold pattern_applier.
      pose proof (apply_pat_wf (if_free ca) g1 (<[ca_fresh ca := sym]> s) (proj1 Gr1) Hw1)
        as Hw2.
      destruct (apply_pat g1 _ (if_free ca)); simpl. apply Hw2.
      intros v Hv. destruct (decide (v = ca_fresh ca)) as [->|Hne].
      * rewrite subst_get_insert_eq. exact Lt1.
      * rewrite subst_get_insert_ne by congruence.
        destruct Gr1 as (_ & Hn1 & _).
        assert (subst_get s v < next_id g); [|lia].
        apply Hvars. rewrite ?elem_of_cons, ?elem_of_app, list_elem_of_filter. tauto.
    + unfold pattern_applier.
      pose proof (apply_pat_wf (if_not_free ca) g s Hg Hw) as Hw1.
      destruct (apply_pat g s (if_not_free ca)); simpl. apply Hw1.
      intros v Hv. apply Hvars. rewrite ?elem_of_cons, ?elem_of_app. tauto.
Qed.

Lemma cond_check_wf (c : Cond) (g : EGraph) (cls : Id) (s : Subst) :
  egraph_inv g -> egraph_wf g ->
  (forall v, v ∈ cond_vars c -> subst_get s v < next_id g) ->
  egraph_wf (cond_check c g cls s).1.
Proof.
  intros Hg Hw Hvars. destruct c as [|p1 p2|v1 v2|v]; simpl in *; try exact Hw.
  unfold condition_equal.
  assert (H1 : forall v, v ∈ pvars p1 -> subst_get s v < next_id g)
    by (intros v Hv; apply Hvars; rewrite elem_of_app; tauto).
  pose proof (apply_pat_wf p1 g s Hg Hw H1) as Hw1.
  destruct (apply_pat_ok p1 g s Hg H1) as [Gr1 _].
  destruct (apply_pat g s p1) as [g1 a1]. simpl in Hw1, Gr1.
  destruct Gr1 as (Hg1 & Hn1 & _).
  pose proof (apply_pat_wf p2 g1 s Hg1 Hw1) as Hw2.
  destruct (apply_pat g1 s p2) as [g2 a2]. simpl. apply Hw2.
  intros v Hv. assert (subst_get s v < next_id g); [|lia].
  apply Hvars. rewrite elem_of_app. tauto.
Qed.

Lemma rw_applier_wf (r : Rewrite) (g : EGraph) (cls : Id) (s : Subst) :
  egraph_inv g -> egraph_wf g ->
  (forall v, v ∈ rule_reads r -> subst_get s v < next_id g) ->
  egraph_wf (rw_applier r g cls s).1.
Proof.
  intros Hg Hw Hvars. unfold rule_reads in Hvars.
  assert (Hr : forall g', egraph_grows g g' -> egraph_wf g' ->
            egraph_wf (rhs_applier (rw_rhs r) g' cls s).1).
  { intros g' (Hg' & Hn & _) Hw'. apply rhs_applier_wf; [exact Hg'|exact Hw'|].
    intros v Hv. assert (subst_get s v < next_id g); [|lia].
    apply Hvars. rewrite elem_of_app. tauto. }
  assert (Hcv : forall v, v ∈ cond_vars (rw_cond r) -> subst_get s v < next_id g)
    by (intros v Hv; apply Hvars; rewrite elem_of_app; tauto).
  pose proof (cond_check_ok (rw_cond r) g cls s Hg Hcv) as Gc.
  pose proof (cond_check_wf (rw_cond r) g cls s Hg Hw Hcv) as Wc.
  unfold rw_applier.
  destruct (rw_cond r) as [|p1 p2|v1 v2|v] eqn:Ec; [exact (Hr g (grows_refl g Hg) Hw)| | |];
    (unfold conditional_applier;
     destruct (cond_check _ g cls s) as [g1 ok] eqn:Eck; simpl in Gc, Wc;
     destruct ok; [exact (Hr g1 Gc Wc)|exact Wc]).
Qed.

Lemma unions_wf (ids : list Id) (g : EGraph) (cls : Id) :
  egraph_inv g -> egraph_wf g -> cls < next_id g -> Forall (fun i => i < next_id g) ids ->
  egraph_wf (foldl (fun g i => union g i cls) g ids).
Proof.
  revert g. unfold union. induction ids as [|i ids IH]; intros g Hg Hw Hcls Hids; cbn [foldl].
  - exact Hw.
  - apply Forall_cons in Hids as [Hi Hids].
    destruct (union_f_ok union_fuel g i cls Hg Hi Hcls) as (Hg1 & Hn1 & _).
    pose proof (union_f_wf union_fuel g i cls Hg Hw Hi Hcls) as Hw1.
    apply IH; [exact Hg1|exact Hw1|lia|].
    eapply Forall_impl; [exact Hids|]. intros x Hx; cbv beta in *; lia.
Qed.

Lemma rewrite_fold_wf (r : Rewrite) (g : EGraph) (cls : Id) (ss : list Subst) :
  forall g0, egraph_inv g0 -> egraph_wf g0 -> next_id g <= next_id g0 -> cls < next_id g ->
  (forall s, s ∈ ss -> forall v, v ∈ rule_reads r -> subst_get s v < next_id g) ->
  egraph_wf
    (foldl (fun g s => let '(g1, ids) := rw_applier r g cls s in
                       foldl (fun g i => union g i cls) g1 ids) g0 ss).
Proof.
  induction ss as [|s ss IH]; intros g0 Hg0 Hw0 Hn0 Hcls Hss; cbn [foldl].
  - exact Hw0.
  - assert (Hv : forall v, v ∈ rule_reads r -> subst_get s v < next_id g0)
      by (intros v Hv; pose proof (Hss s ltac:(left) v Hv); lia).
    destruct (rw_applier_ok r g0 cls s Hg0 Hv) as [Gr1 Lt1].
    pose proof (rw_applier_wf r g0 cls s Hg0 Hw0 Hv) as Hw1.
    destruct (rw_applier r g0 cls s) as [g1 ids]. simpl in Gr1, Lt1, Hw1.
    pose proof Gr1 as (Hg1 & Hn1 & _).
    pose proof (unions_ok ids g1 cls Hg1 ltac:(lia) Lt1) as (Hg2 & Hn2 & _).
    pose proof (unions_wf ids g1 cls Hg1 Hw1 ltac:(lia) Lt1) as Hw2.
    apply IH; [exact Hg2|exact Hw2|lia|exact Hcls|].
    intros s' Hs'. apply Hss. right. exact Hs'.
Qed.

(** Running any rule of [rules()] on a class of a well-formed graph (search,
    apply each match, union each result with the class) keeps the graph
    well-formed: the invariant, the id bounds and literal constants all
    hold again afterwards; it loses no id and never separates two ids that
    were in one class. *)
Theorem rules_keep_egraph (r : Rewrite) (Hr : r ∈ rules) (g : EGraph) (cls : Id)
    (Hg : egraph_inv g) (Hb : egraph_bounded g) (Hl : consts_lit g)
    (Hcls : cls < next_id g) :
  egraph_grows g (rewrite_class (rw_lhs r) (rw_applier r) g cls) /\
  egraph_bounded (rewrite_class (rw_lhs r) (rw_applier r) g cls) /\
  consts_lit (rewrite_class (rw_lhs r) (rw_applier r) g cls).
Proof.
  assert (Hss : forall s, s ∈ ematch g (rw_lhs r) cls ∅ ->
                forall v, v ∈ rule_reads r -> subst_get s v < next_id g)
    by (intros s Hs; exact (match_reads_bounded g r cls s Hg Hb Hr Hcls Hs)).
  unfold rewrite_class. split.
  - apply (rewrite_fold_ok r g cls); [exact Hg|lia|exact Hcls|exact Hss].
  - apply (rewrite_fold_wf r g cls); [exact Hg|split; [exact Hb|exact Hl]|lia|exact Hcls|exact Hss].
Qed.

Lemma var_fold_join (r : Rewrite) (x : string) (g : EGraph) (cls : Id) :
  rw_rhs r = RhsPattern (PV x) -> rw_cond r = NoCond ->
  forall ss g0, egraph_inv g0 -> next_id g <= next_id g0 -> cls < next_id g ->
  (forall s, s ∈ ss -> forall v, v ∈ rule_reads r -> subst_get s v < next_id g) ->
  forall s, s ∈ ss ->
  let g' := foldl (fun g s => let '(g1, ids) := rw_applier r g cls s in
                              foldl (fun g i => union g i cls) g1 ids) g0 ss in
  find g' cls = find g' (subst_get s x).
Proof.
  intros Hx Hc ss. induction ss as [|s0 ss IH]; intros g0 Hg0 Hn0 Hcls Hss s Hs;
    [apply not_elem_of_nil in Hs; contradiction|].
  assert (Happ : rw_applier r g0 cls s0 = (g0, [subst_get s0 x]))
    by (unfold rw_applier; rewrite Hc, Hx; reflexivity).
  assert (Hs0 : subst_get s0 x < next_id g).
  { apply (Hss s0 ltac:(left)). unfold rule_reads. rewrite Hx, Hc. simpl. left. }
  cbn zeta. cbn [foldl]. rewrite Happ. cbn [foldl].
  set (g1 := union g0 (subst_get s0 x) cls).
  destruct (union_f_ok union_fuel g0 (subst_get s0 x) cls Hg0 ltac:(lia) ltac:(lia))
    as (Hg1 & Hn1 & _).
  fold union in Hg1, Hn1. fold g1 in Hg1, Hn1.
  assert (Hrest : forall s', s' ∈ ss -> forall v, v ∈ rule_reads r -> subst_get s' v < next_id g)
    by (intros s' Hs' v Hv; apply Hss; [right; exact Hs'|exact Hv]).
  apply elem_of_cons in Hs as [->|Hs].
  - destruct (rewrite_fold_ok r g cls ss g1 Hg1 ltac:(lia) Hcls Hrest) as (_ & _ & Hf).
    symmetry. apply Hf.
    exact (union_f_joins 3 g0 (subst_get s0 x) cls Hg0 ltac:(lia) ltac:(lia)).
  - exact (IH g1 Hg1 ltac:(lia) Hcls Hrest s Hs).
Qed.

(** For the rules whose right-hand side is a pattern variable and that have
    no condition ("if-true", "if-false", "let-var-same"): after the rule ran
    on a class, that class and the class bound to the variable by each
    match are one class. *)
Theorem var_rules_join (r : Rewrite) (Hr : r ∈ rules) (x : string)
    (Hx : rw_rhs r = RhsPattern (PV x)) (Hc : rw_cond r = NoCond)
    (g : EGraph) (cls : Id)
    (Hg : egraph_inv g) (Hb : egraph_bounded g) (Hcls : cls < next_id g) :
  forall s, s ∈ ematch g (rw_lhs r) cls ∅ ->
  find (rewrite_class (rw_lhs r) (rw_applier r) g cls) cls =
  find (rewrite_class (rw_lhs r) (rw_applier r) g cls) (subst_get s x).
Proof.
  intros s Hs. unfold rewrite_class.
  exact (var_fold_join r x g cls Hx Hc _ g Hg ltac:(lia) Hcls
           (fun s' Hs' => match_reads_bounded g r cls s' Hg Hb Hr Hcls Hs') s Hs).
Qed.

Lemma let_lam_diff_rule_in_rules :
  mkRewrite "let-lam-diff" let_lam_diff_lhs (RhsCapture let_lam_diff_applier)
    (CondNotSameVar "?v1" "?v2") ∈ rules.
Proof. apply list_elem_of_In. simpl. repeat (first [left; reflexivity | right]). Qed.

Lemma let_var_same_rule_in_rules :
  mkRewrite "let-var-same" (PLet (PV "?v1") (PV "?e") (PVar (PV "?v1")))
    (RhsPattern (PV "?e")) NoCond ∈ rules.
Proof. apply list_elem_of_In. simpl. repeat (first [left; reflexivity | right]). Qed.

Lemma rules_keep_egraph_witness :
  let r := mkRewrite "let-lam-diff" let_lam_diff_lhs
             (RhsCapture let_lam_diff_applier) (CondNotSameVar "?v1" "?v2") in
  egraph_inv capture_graph /\ egraph_bounded capture_graph /\ consts_lit capture_graph /\
  next_id (rewrite_class let_lam_diff_lhs (rw_applier r) capture_graph 5) = 11 /\
  egraph_grows capture_graph (rewrite_class let_lam_diff_lhs (rw_applier r) capture_graph 5) /\
  egraph_bounded (rewrite_class let_lam_diff_lhs (rw_applier r) capture_graph 5) /\
  consts_lit (rewrite_class let_lam_diff_lhs (rw_applier r) capture_graph 5).
Proof.
  intros r.
  assert (Hg : egraph_inv capture_graph)
    by (apply egraph_inv_check_sound; vm_compute; reflexivity).
  assert (Hb : egraph_bounded capture_graph)
    by (apply (bool_decide_unpack _); vm_compute; reflexivity).
  assert (Hl : consts_lit capture_graph)
    by (apply (bool_decide_unpack _); vm_compute; reflexivity).
  split; [exact Hg|]. split; [exact Hb|]. split; [exact Hl|].
  split; [vm_compute; reflexivity|].
  exact (rules_keep_egraph _ let_lam_diff_rule_in_rules capture_graph 5 Hg Hb Hl
           ltac:(vm_compute; reflexivity)).
Defined.

Lemma var_rules_join_witness :
  let r := mkRewrite "let-var-same" (PLet (PV "?v1") (PV "?e") (PVar (PV "?v1")))
             (RhsPattern (PV "?e")) NoCond in
  egraph_inv var_same_graph /\ egraph_bounded var_same_graph /\
  ematch var_same_graph (rw_lhs r) 3 ∅ = [<["?e" := 1]> (<["?v1" := 0]> ∅)] /\
  forall s, s ∈ ematch var_same_graph (rw_lhs r) 3 ∅ ->
    find (rewrite_class (rw_lhs r) (rw_applier r) var_same_graph 3) 3 =
    find (rewrite_class (rw_lhs r) (rw_applier r) var_same_graph 3) (subst_get s "?e").
Proof.
  intros r.
  assert (Hg : egraph_inv var_same_graph)
    by (apply egraph_inv_check_sound; vm_compute; reflexivity).
  assert (Hb : egraph_bounded var_same_graph)
    by (apply (bool_decide_unpack _); vm_compute; reflexivity).
  split; [exact Hg|]. split; [exact Hb|]. split; [vm_compute; reflexivity|].
  exact (var_rules_join r let_var_same_rule_in_rules "?e" eq_refl eq_refl
           var_same_graph 3 Hg Hb ltac:(vm_compute; reflexivity)).
Defined.

(** Where the debug build's [eval] returns (no overflow panic), the release
    build's [eval] returns the same value: the two builds differ only by
    the debug build panicking. *)
Theorem debug_release_agree (x : Id -> option Lambda) (n : Lambda) (r : option Lambda)
    (H : eval_with Debug x n = Ret r) :
  eval_with Release x n = Ret r.
Proof.
  destruct n; simpl in *; try exact H.
  destruct (x a ≫= num) as [na|]; [|exact H].
  destruct (x b ≫= num) as [nb|]; [|exact H].
  simpl in *. case_decide as Hin; [|discriminate].
  rewrite wrap_i32_small by exact Hin. exact H.
Qed.

Lemma union_raw_data (g : EGraph) (a b x : Id) :
  egraph_inv g -> a < next_id g -> b < next_id g -> x < next_id g ->
  find g a <> find g b ->
  data (union_raw g a b) x =
  if decide (find g x = find g a \/ find g x = find g b)
  then fst (merge (data g a) (data g b)) else data g x.
Proof.
  intros Hg Ha Hb Hx Hne. unfold data at 1.
  rewrite (union_raw_find g Hg a b x Ha Hb Hne).
  unfold union_raw at 1. simpl.
  case_decide as E1.
  - destruct (decide (find g x = find g a \/ find g x = find g b)); [|tauto]. rewrite lookup_insert_eq. reflexivity.
  - destruct (decide (find g x = find g a)) as [E2|E2].
    + rewrite E2. destruct (decide (find g a = find g a \/ find g a = find g b)); [|tauto].
      rewrite lookup_insert_eq. reflexivity.
    + destruct (decide (find g x = find g a \/ find g x = find g b)); [tauto|].
      rewrite lookup_insert_ne by congruence. rewrite lookup_delete_ne by congruence.
      reflexivity.
Qed.

Lemma data_find (g : EGraph) (x y : Id) : find g x = find g y -> data g x = data g y.
Proof. intros E. unfold data. rewrite E. reflexivity. Qed.

Lemma insert_new_data_old (g : EGraph) (n : Lambda) (x : Id) :
  egraph_inv g -> x < next_id g -> data (insert_new g n).1 x = data g x.
Proof.
  intros Hg Hx. unfold data. rewrite (insert_new_find g Hg).
  pose proof (find_lt g Hg x Hx).
  unfold insert_new. simpl. rewrite lookup_insert_ne by lia. reflexivity.
Qed.

Lemma add_raw_data_old (g : EGraph) (n : Lambda) (x : Id) :
  egraph_inv g -> x < next_id g -> data (add_raw g n).1 x = data g x.
Proof.
  intros Hg Hx. unfold add_raw.
  destruct (memo_lookup _ _); [reflexivity|]. apply insert_new_data_old; assumption.
Qed.

Lemma union_raw_keeps_constant (g : EGraph) (a b x : Id) :
  egraph_inv g -> a < next_id g -> b < next_id g -> x < next_id g ->
  find g a <> find g b ->
  is_Some (constant_of g x) -> is_Some (constant_of (union_raw g a b) x).
Proof.
  intros Hg Ha Hb Hx Hne Hc. unfold constant_of in *.
  rewrite (union_raw_data g a b x Hg Ha Hb Hx Hne).
  destruct (decide (find g x = find g a \/ find g x = find g b)) as [[E|E]|E];
    [| |exact Hc]; rewrite merge_constant.
  - rewrite <- (data_find g x a E). destruct Hc as [c ->]. eauto.
  - rewrite <- (data_find g x b E). destruct (constant (data g a)); eauto.
Qed.

Lemma union_f_keeps_constant (k : nat) :
  forall g a b x, egraph_inv g -> a < next_id g -> b < next_id g -> x < next_id g ->
  is_Some (constant_of g x) -> is_Some (constant_of (union_f k g a b) x).
Proof.
  induction k as [|k IH]; intros g a b x Hg Ha Hb Hx Hc; simpl; [exact Hc|].
  case_decide as Heq; [exact Hc|].
  pose proof (union_raw_inv g Hg a b Ha Hb Heq) as Hg1.
  pose proof (union_raw_keeps_constant g a b x Hg Ha Hb Hx Heq Hc) as Hc1.
  set (g1 := union_raw g a b) in *.
  assert (Hn1 : next_id g1 = next_id g) by reflexivity.
  pose proof (find_lt g Hg a Ha) as Hra.
  unfold modify_with.
  destruct (constant_of g1 (find g a)) as [c|]; [|exact Hc1].
  pose proof (add_raw_ok g1 Hg1 c) as (Hg2 & Hn2 & Hc2 & _).
  pose proof (add_raw_data_old g1 c x Hg1 ltac:(lia)) as Hd.
  destruct (add_raw g1 c) as [g2 cid]. simpl in *.
  apply IH; [exact Hg2|lia|exact Hc2|lia|].
  unfold constant_of. rewrite Hd. exact Hc1.
Qed.

(** A constant, once known for a class, is never lost: neither [add] (with
    its [modify] hook) nor [union] makes a class's [constant] [None]
    again. *)
Theorem add_union_keep_constant (g : EGraph) (x : Id) (Hg : egraph_inv g)
    (Hx : x < next_id g) (Hc : is_Some (constant_of g x)) :
  (forall n, is_Some (constant_of (add g n).1 x)) /\
  (forall a b, a < next_id g -> b < next_id g -> is_Some (constant_of (union g a b) x)).
Proof.
  split.
  - intros n. unfold add.
    destruct (memo_lookup (memo g) (map_children (find g) n)); [exact Hc|].
    pose proof (insert_new_inv g Hg (map_children (find g) n)) as Hg1.
    pose proof (insert_new_data_old g (map_children (find g) n) x Hg Hx) as Hd.
    destruct (insert_new g (map_children (find g) n)) as [g1 id] eqn:Ei. simpl in *.
    assert (Hn1 : next_id g1 = next_id g + 1) by (unfold insert_new in Ei; injection Ei as <-; reflexivity).
    assert (Hid : id = next_id g) by (unfold insert_new in Ei; congruence).
    unfold modify, modify_with.
    destruct (constant_of g1 id) as [c|]; [|unfold constant_of; rewrite Hd; exact Hc].
    pose proof (add_raw_ok g1 Hg1 c) as (Hg2 & Hn2 & Hc2 & _).
    pose proof (add_raw_data_old g1 c x Hg1 ltac:(lia)) as Hd2.
    destruct (add_raw g1 c) as [g2 cid]. simpl in *.
    apply union_f_keeps_constant; [exact Hg2|lia|exact Hc2|lia|].
    unfold constant_of. rewrite Hd2, Hd. exact Hc.
  - intros a b Ha Hb. apply union_f_keeps_constant; assumption.
Qed.

Lemma const_fold_join (r : Rewrite) (x : string) (g : EGraph) (cls : Id) :
  rw_rhs r = RhsPattern (PV x) -> rw_cond r = CondIsConst x ->
  forall ss g0, egraph_inv g0 -> next_id g <= next_id g0 -> cls < next_id g ->
  (forall s, s ∈ ss -> forall v, v ∈ rule_reads r -> subst_get s v < next_id g) ->
  forall s, s ∈ ss -> is_Some (constant_of g0 (subst_get s x)) ->
  let g' := foldl (fun g s => let '(g1, ids) := rw_applier r g cls s in
                              foldl (fun g i => union g i cls) g1 ids) g0 ss in
  find g' cls = find g' (subst_get s x).
Proof.
  intros Hx Hc ss. induction ss as [|s0 ss IH]; intros g0 Hg0 Hn0 Hcls Hss s Hs Hcs;
    [apply not_elem_of_nil in Hs; contradiction|].
  assert (Hs0 : subst_get s0 x < next_id g).
  { apply (Hss s0 ltac:(left)). unfold rule_reads. rewrite Hx, Hc. simpl. left. }
  assert (Hsx : subst_get s x < next_id g).
  { apply (Hss s ltac:(exact Hs)). unfold rule_reads. rewrite Hx, Hc. simpl. left. }
  assert (Hrest : forall s', s' ∈ ss -> forall v, v ∈ rule_reads r -> subst_get s' v < next_id g)
    by (intros s' Hs' v Hv; apply Hss; [right; exact Hs'|exact Hv]).
  cbn zeta. cbn [foldl].
  destruct (constant_of g0 (subst_get s0 x)) as [c|] eqn:Ec0.
  - assert (Happ : rw_applier r g0 cls s0 = (g0, [subst_get s0 x]))
      by (unfold rw_applier; rewrite Hc, Hx; cbn [cond_check rhs_applier];
        unfold conditional_applier, is_const; rewrite Ec0; reflexivity).
    rewrite Happ. cbn [foldl].
    set (g1 := union g0 (subst_get s0 x) cls).
    destruct (union_f_ok union_fuel g0 (subst_get s0 x) cls Hg0 ltac:(lia) ltac:(lia))
      as (Hg1 & Hn1 & _).
    fold union in Hg1, Hn1. fold g1 in Hg1, Hn1.
    apply elem_of_cons in Hs as [->|Hs].
    + destruct (rewrite_fold_ok r g cls ss g1 Hg1 ltac:(lia) Hcls Hrest) as (_ & _ & Hf).
      symmetry. apply Hf.
      exact (union_f_joins 3 g0 (subst_get s0 x) cls Hg0 ltac:(lia) ltac:(lia)).
    + apply (IH g1 Hg1 ltac:(lia) Hcls Hrest s Hs).
      apply union_f_keeps_constant; [exact Hg0|lia|lia|lia|exact Hcs].
  - assert (Happ : rw_applier r g0 cls s0 = (g0, []))
      by (unfold rw_applier; rewrite Hc, Hx; cbn [cond_check rhs_applier];
        unfold conditional_applier, is_const; rewrite Ec0; reflexivity).
    rewrite Happ. cbn [foldl].
    apply elem_of_cons in Hs as [->|Hs].
    + rewrite Ec0 in Hcs. destruct Hcs as [? [=]].
    + exact (IH g0 Hg0 Hn0 Hcls Hrest s Hs Hcs).
Qed.

Lemma const_fold_none (r : Rewrite) (x : string) (cls : Id) :
  rw_rhs r = RhsPattern (PV x) -> rw_cond r = CondIsConst x ->
  forall ss g0, Forall (fun s => constant_of g0 (subst_get s x) = None) ss ->
  foldl (fun g s => let '(g1, ids) := rw_applier r g cls s in
                    foldl (fun g i => union g i cls) g1 ids) g0 ss = g0.
Proof.
  intros Hx Hc ss. induction ss as [|s0 ss IH]; intros g0 Hss; [reflexivity|].
  apply Forall_cons in Hss as [Hs0 Hss]. cbn [foldl].
  assert (Happ : rw_applier r g0 cls s0 = (g0, []))
    by (unfold rw_applier; rewrite Hc, Hx; cbn [cond_check rhs_applier];
        unfold conditional_applier, is_const; rewrite Hs0; reflexivity).
  rewrite Happ. cbn [foldl]. exact (IH g0 Hss).
Qed.

(** For the rule whose right-hand side is a pattern variable guarded by
    [is_const] of that variable ("let-const"): after the rule ran on a
    class, every match whose [?c] class has a constant is joined with the
    class, and when no match has one the e-graph is unchanged. *)
Theorem const_rules_join (r : Rewrite) (Hr : r ∈ rules) (x : string)
    (Hx : rw_rhs r = RhsPattern (PV x)) (Hc : rw_cond r = CondIsConst x)
    (g : EGraph) (cls : Id)
    (Hg : egraph_inv g) (Hb : egraph_bounded g) (Hcls : cls < next_id g) :
  (forall s, s ∈ ematch g (rw_lhs r) cls ∅ -> is_Some (constant_of g (subst_get s x)) ->
   find (rewrite_class (rw_lhs r) (rw_applier r) g cls) cls =
   find (rewrite_class (rw_lhs r) (rw_applier r) g cls) (subst_get s x)) /\
  (Forall (fun s => constant_of g (subst_get s x) = None) (ematch g (rw_lhs r) cls ∅) ->
   rewrite_class (rw_lhs r) (rw_applier r) g cls = g).
Proof.
  split.
  - intros s Hs Hcs. unfold rewrite_class.
    exact (const_fold_join r x g cls Hx Hc _ g Hg ltac:(lia) Hcls
             (fun s' Hs' => match_reads_bounded g r cls s' Hg Hb Hr Hcls Hs') s Hs Hcs).
  - intros Hnone. unfold rewrite_class. exact (const_fold_none r x cls Hx Hc _ g Hnone).
Qed.

Lemma let_const_rule_in_rules :
  mkRewrite "let-const" (PLet (PV "?v") (PV "?e") (PV "?c")) (RhsPattern (PV "?c"))
    (CondIsConst "?c") ∈ rules.
Proof. apply list_elem_of_In. simpl. repeat (first [left; reflexivity | right]). Qed.

Lemma const_rules_join_witness :
  let r := mkRewrite "let-const" (PLet (PV "?v") (PV "?e") (PV "?c")) (RhsPattern (PV "?c"))
             (CondIsConst "?c") in
  let s := <["?c" := 2]> (<["?e" := 1]> (<["?v" := 0]> ∅)) : Subst in
  egraph_inv let_const_graph /\ egraph_bounded let_const_graph /\
  ematch let_const_graph (rw_lhs r) 3 ∅ = [s] /\
  constant_of let_const_graph 2 = Some (Num 2) /\
  find (rewrite_class (rw_lhs r) (rw_applier r) let_const_graph 3) 3 =
  find (rewrite_class (rw_lhs r) (rw_applier r) let_const_graph 3) 2.
Proof.
  intros r s.
  assert (Hg : egraph_inv let_const_graph)
    by (apply egraph_inv_check_sound; vm_compute; reflexivity).
  assert (Hb : egraph_bounded let_const_graph)
    by (apply (bool_decide_unpack _); vm_compute; reflexivity).
  assert (Hm : ematch let_const_graph (rw_lhs r) 3 ∅ = [s]) by (vm_compute; reflexivity).
  assert (Hc : constant_of let_const_graph 2 = Some (Num 2)) by (vm_compute; reflexivity).
  split; [exact Hg|]. split; [exact Hb|]. split; [exact Hm|]. split; [exact Hc|].
  refine (proj1 (const_rules_join r let_const_rule_in_rules "?c" eq_refl eq_refl
           let_const_graph 3 Hg Hb ltac:(vm_compute; reflexivity)) s _ _).
  - rewrite Hm. left.
  - exists (Num 2). exact Hc.
Defined.

Lemma debug_release_agree_witness :
  eval_with Debug (child_consts (Some (Num 2)) (Some (Num 2))) (Add 0 1) = Ret (Some (Num 4)) /\
  eval_with Release (child_consts (Some (Num 2)) (Some (Num 2))) (Add 0 1) = Ret (Some (Num 4)).
Proof.
  assert (H : eval_with Debug (child_consts (Some (Num 2)) (Some (Num 2))) (Add 0 1)
              = Ret (Some (Num 4))) by (vm_compute; reflexivity).
  split; [exact H|exact (debug_release_agree _ _ _ H)].
Defined.

Lemma add_union_keep_constant_witness :
  egraph_inv let_const_graph /\ constant_of let_const_graph 2 = Some (Num 2) /\
  is_Some (constant_of (add let_const_graph (Add 1 2)).1 2) /\
  is_Some (constant_of (union let_const_graph 2 3) 2).
Proof.
  assert (Hg : egraph_inv let_const_graph)
    by (apply egraph_inv_check_sound; vm_compute; reflexivity).
  assert (Hc : constant_of let_const_graph 2 = Some (Num 2)) by (vm_compute; reflexivity).
  split; [exact Hg|]. split; [exact Hc|].
  destruct (add_union_keep_constant let_const_graph 2 Hg ltac:(vm_compute; reflexivity)
              (ex_intro _ (Num 2) Hc)) as [Ha Hu].
  split; [exact (Ha (Add 1 2))|].
  exact (Hu 2 3 ltac:(vm_compute; reflexivity) ltac:(vm_compute; reflexivity)).
Defined.

(** The [bench_pats] of [lambda_bench_meta] are exactly the left-hand sides
    of [rules()] without an [is_not_same_var] condition, in the order of
    [rules()]. *)
Theorem bench_pats_are_unguarded_lhs :
  bench_pats =
  map rw_lhs (List.filter (fun r => match rw_cond r with
                                    | CondNotSameVar _ _ => false
                                    | _ => true
                                    end) rules).
Proof. reflexivity. Qed.
